(** * discord-ext-compat: a shallow embedding of [discord/ext/compat/__init__.py]

    The development follows the source file top to bottom:
    Python values and exceptions, the option descriptor store, the
    [Injector], [override_option] / [describe], the bot facade
    ([CompatBotMixin.add_command]), the synthetic message and the
    interaction aware context, and the [Range] converter.

    Python objects are attribute dictionaries ([gmap string val]); code that
    raises lives in a state-and-exception monad, so that what a raising call
    leaves behind stays observable.  Functions of the host library
    ([discord.application_commands], [discord.Interaction]) are not part of
    the repository: they are the operations of a class, or small models
    built from the specification, and are marked as such. *)

From Stdlib Require Import ZArith Ascii String List Bool Lia.
From stdpp Require Import base option list gmap strings pretty.

Local Open Scope string_scope.
Local Open Scope Z_scope.

(** ** Python values and exceptions *)

Module Py.

(** [discord.ApplicationCommandOptionType]. *)
Inductive option_type :=
  | sub_command | sub_command_group | string_t | integer | boolean
  | user | channel | role | mentionable | number.

(** The values that flow through the module.  [VMissing] is the
    [discord.utils.MISSING] sentinel, [VNone] is [None]. *)
Inductive val :=
  | VMissing
  | VNone
  | VBool (b : bool)
  | VInt (z : Z)
  | VStr (s : string)
  | VOptionType (t : option_type)
  | VClass (qualname : string).

(** The exceptions the module raises or lets through. *)
Inductive exn :=
  | ValueError (msg : string)
  | TypeError (msg : string)
  | AttributeError (attr : string)
  | RecursionError
  | BadArgument (msg : string)
  | CheckFailure (msg : string)
  | InteractionResponded
  | HTTPException.

(** [x is MISSING]. *)
Definition is_missing (v : val) : bool :=
  match v with VMissing => true | _ => false end.

(** Truth value testing: [MISSING] is falsy by its [__bool__]. *)
Definition truthy (v : val) : bool :=
  match v with
  | VMissing | VNone => false
  | VBool b => b
  | VInt z => negb (z =? 0)
  | VStr s => negb (String.eqb s "")
  | VOptionType _ | VClass _ => true
  end.

(** An object is its attribute dictionary. *)
Abbreviation obj := (gmap string val).

(** [getattr(o, name)] raises [AttributeError] on a missing attribute. *)
Definition getattr (o : obj) (name : string) : exn + val :=
  match o !! name with
  | Some v => inr v
  | None => inl (AttributeError name)
  end.

(** [setattr(o, name, v)]. *)
Definition setattr (o : obj) (name : string) (v : val) : obj := <[name := v]> o.

(** *** Text

    A [str] is modelled by a [string] whose characters are the code points
    below 256. *)

Definition code (c : ascii) : Z := Z.of_N (N_of_ascii c).

(** [s[:n]]. *)
Definition slice_to (n : nat) (s : string) : string := substring 0 n s.

(** [str(i)] for an [int]. *)
Definition str_of_int (z : Z) : string := pretty z.

Definition hex_digit (n : Z) : ascii :=
  ascii_of_N (Z.to_N (if n <? 10 then 48 + n else 87 + n)).

(** Code points below 256 that [str.isprintable] rejects. *)
Definition unprintable (c : ascii) : bool :=
  let n := code c in
  (n <? 32) || ((127 <=? n) && (n <=? 160)) || (n =? 173).

Definition contains (c : ascii) (s : string) : bool :=
  existsb (Ascii.eqb c) (list_ascii_of_string s).

(** [repr(s)] for a [str]: single quotes unless the text has a single quote
    and no double quote; backslash, the chosen quote, tab, newline and
    carriage return are escaped, other unprintable characters are written
    [\xhh]. *)
Definition repr_char (quote c : ascii) : string :=
  let bs := "\"%char in
  if Ascii.eqb c bs || Ascii.eqb c quote then String bs (String c "")
  else if code c =? 9 then String bs "t"
  else if code c =? 10 then String bs "n"
  else if code c =? 13 then String bs "r"
  else if unprintable c then
    String bs (String "x" (String (hex_digit (code c / 16))
                                  (String (hex_digit (code c mod 16)) "")))
  else String c "".

Definition double_quote : ascii := ascii_of_nat 34.

Definition repr_str (s : string) : string :=
  let quote :=
    if contains "'" s && negb (contains double_quote s) then double_quote
    else "'"%char in
  String quote
    (fold_right (fun c acc => repr_char quote c ++ acc) (String quote "")
       (list_ascii_of_string s)).

(** [int(s)] for a [str], base ten: surrounding white space is dropped, one
    sign is allowed, then decimal digits with single underscores between
    digits.  [None] stands for [ValueError].  The cap recent interpreters
    put on the number of digits is left out. *)
Definition is_space (c : ascii) : bool :=
  let n := code c in
  ((9 <=? n) && (n <=? 13)) || ((28 <=? n) && (n <=? 32)) || (n =? 133) || (n =? 160).

Fixpoint lstrip (l : list ascii) : list ascii :=
  match l with
  | c :: r => if is_space c then lstrip r else l
  | [] => []
  end.

Definition strip (l : list ascii) : list ascii := rev (lstrip (rev (lstrip l))).

Definition digit_val (c : ascii) : option Z :=
  let n := code c in
  if (48 <=? n) && (n <=? 57) then Some (n - 48) else None.

Fixpoint parse_digits (acc : Z) (after_digit : bool) (l : list ascii) : option Z :=
  match l with
  | [] => if after_digit then Some acc else None
  | c :: r =>
      match digit_val c with
      | Some d => parse_digits (10 * acc + d) true r
      | None =>
          if Ascii.eqb c "_" && after_digit then parse_digits acc false r
          else None
      end
  end.

Definition int_of_str (s : string) : option Z :=
  match strip (list_ascii_of_string s) with
  | "+"%char :: r => parse_digits 0 false r
  | "-"%char :: r => Z.opp <$> parse_digits 0 false r
  | l => parse_digits 0 false l
  end.

End Py.

Import Py.

(** ** [Range]: the converter of the text path *)

Module Range.

Record t := { min_value : Z; max_value : Z }.

(** What [argument] is bound to when [BadArgument] is built: the parsed
    [int] when [int(argument)] went through, the raw token otherwise. *)
Definition repr_argument (argument : string) : string :=
  match int_of_str argument with
  | Some n => str_of_int n
  | None => repr_str argument
  end.

Definition bad_argument (self : t) (argument : string) : exn :=
  BadArgument ("Expected a number between " ++ str_of_int (min_value self)
               ++ " and " ++ str_of_int (max_value self)
               ++ ", but got " ++ repr_argument argument ++ " instead").

(** [Range.convert]. *)
Definition convert (self : t) (argument : string) : exn + Z :=
  match int_of_str argument with
  | None => inl (bad_argument self argument)
  | Some n =>
      if (min_value self <=? n) && (n <=? max_value self) then inr n
      else inl (bad_argument self argument)
  end.

End Range.


(** ** A state and exception monad

    A computation takes the mutable state, and returns either the raised
    exception or the result, with the state as the computation left it. *)

Module Eff.

Definition M (S A : Type) : Type := S -> (exn + A) * S.

Definition ret {S A} (a : A) : M S A := fun s => (inr a, s).
Definition raise {S A} (e : exn) : M S A := fun s => (inl e, s).
Definition bind {S A B} (m : M S A) (k : A -> M S B) : M S B :=
  fun s => match m s with
           | (inr a, s') => k a s'
           | (inl e, s') => (inl e, s')
           end.
Definition get {S} : M S S := fun s => (inr s, s).
Definition modify {S} (f : S -> S) : M S unit := fun s => (inr tt, f s).
Definition lift {S A} (r : exn + A) : M S A := fun s => (r, s).

End Eff.

Import Eff.

Notation "'let*' x ':=' m 'in' k" := (bind m (fun x => k))
  (at level 10, x name, m at level 100, k at level 200, only parsing).
Notation "m ;;; k" := (bind m (fun _ => k))
  (at level 100, k at level 200, right associativity, only parsing).

(** ** The host library, as far as the module calls it

    [option] and [_resolve_option_annotation] belong to
    [discord.application_commands].  [option kwargs] builds a descriptor or
    raises; the resolver mutates the descriptor it is given and may raise,
    so it returns the descriptor as it left it together with the exception,
    if any. *)

Class Host := {
  option_ : list (string * val) -> exn + obj;
  resolve_option_annotation : obj -> val -> obj * option exn;
}.

(** ** Registration: descriptors, the injector, overrides *)

Inductive application_command_type := chat_input | user_command | message_command.

(** An [inspect.Parameter] of [command.clean_params]: a [default] of [None]
    is [parameter.empty]. *)
Module inspect.
Record t := { default : option val }.
End inspect.
Abbreviation parameter := inspect.t.

(** The keyword arguments of [inject]; [None] is [MISSING]. *)
Record inject_kwargs := {
  name : option string;
  type : application_command_type;
  description : option string;
  parent : option string;
  default_permission : bool;
  option_kwargs : option (list (string * val));
  guild_id : option Z;
  tree : option string;
  excluded_options : list string;
}.

(** What [Injector.inject] hands to [ApplicationCommandMeta]: the class
    name, the descriptors spliced into the namespace, the keyword arguments,
    and the parameter names the entry point callback maps.  Building the
    class and [bot.add_application_command] are host code; they are taken
    to return. *)
Record schema := {
  s_ident : string;
  s_annotations : gmap string val;
  s_options : gmap string obj;
  s_type : application_command_type;
  s_name : string;
  s_description : string;
  s_parent : option string;
  s_default_permission : bool;
  s_option_kwargs : option (list (string * val));
  s_guild_id : option Z;
  s_tree : string;
  s_callback_kwargs : list string;
}.

Record injector := { inj_tree : string }.

(** [functools.partial(self.inject, name=..., ..., tree=tree)]. *)
Record pending := {
  p_self : injector;
  p_name : option string;
  p_type : application_command_type;
  p_description : option string;
  p_parent : option string;
  p_default_permission : bool;
  p_option_kwargs : option (list (string * val));
  p_guild_id : option Z;
  p_tree : option string;
}.

(** The callback function object: the attributes the module reads and the
    ones it attaches ([None]: the attribute is absent). *)
Record callback := {
  fn_name : string;
  fn_annotations : gmap string val;
  compat_options : option (gmap string obj);
  compat_inject : option pending;
  compat_injection_kwargs : option inject_kwargs;
  compat_application_command : option schema;
}.

(** A [commands.Command]; [cmd_parent] is the parent command, with its
    [__compat_application_command__] attribute when it has one;
    [clean_params] is an ordered mapping, listed in its order (the keys of
    a mapping are distinct). *)
Record command := {
  cmd_name : string;
  qualified_name : string;
  short_doc : string;
  cmd_parent : option (option string);
  clean_params : list (string * parameter);
}.

(** The mutable state at registration time: the callback object, the
    command's [__compat_injector__] attribute, the application commands the
    bot holds, and the legacy commands it holds. *)
Record reg := {
  fn : callback;
  compat_injector : option injector;
  application_commands : list (schema * option Z);
  legacy_commands : list string;
}.

Definition set_fn (f : callback -> callback) (r : reg) : reg :=
  {| fn := f (fn r); compat_injector := compat_injector r;
     application_commands := application_commands r;
     legacy_commands := legacy_commands r |}.

Definition set_options (o : gmap string obj) (c : callback) : callback :=
  {| fn_name := fn_name c; fn_annotations := fn_annotations c;
     compat_options := Some o; compat_inject := compat_inject c;
     compat_injection_kwargs := compat_injection_kwargs c;
     compat_application_command := compat_application_command c |}.

Definition set_compat_inject (p : pending) (c : callback) : callback :=
  {| fn_name := fn_name c; fn_annotations := fn_annotations c;
     compat_options := compat_options c; compat_inject := Some p;
     compat_injection_kwargs := compat_injection_kwargs c;
     compat_application_command := compat_application_command c |}.

Definition set_injection_kwargs (k : inject_kwargs) (c : callback) : callback :=
  {| fn_name := fn_name c; fn_annotations := fn_annotations c;
     compat_options := compat_options c; compat_inject := compat_inject c;
     compat_injection_kwargs := Some k;
     compat_application_command := compat_application_command c |}.

Definition set_application_command (s : schema) (c : callback) : callback :=
  {| fn_name := fn_name c; fn_annotations := fn_annotations c;
     compat_options := compat_options c; compat_inject := compat_inject c;
     compat_injection_kwargs := compat_injection_kwargs c;
     compat_application_command := Some s |}.

Definition add_application_command (s : schema) (g : option Z) (r : reg) : reg :=
  {| fn := fn r; compat_injector := compat_injector r;
     application_commands := application_commands r ++ [(s, g)];
     legacy_commands := legacy_commands r |}.

Definition set_compat_injector (i : injector) (r : reg) : reg :=
  {| fn := fn r; compat_injector := Some i;
     application_commands := application_commands r;
     legacy_commands := legacy_commands r |}.

Definition add_legacy_command (n : string) (r : reg) : reg :=
  {| fn := fn r; compat_injector := compat_injector r;
     application_commands := application_commands r;
     legacy_commands := legacy_commands r ++ [n] |}.

Section Registration.
Context `{Host}.

(** The [defaultdict(lambda: option(description=MISSING))]: [options[key]]
    builds and stores a descriptor on a miss. *)
Definition getitem (key : string) : M (gmap string obj) obj :=
  fun store =>
    match store !! key with
    | Some d => (inr d, store)
    | None =>
        match option_ [("description", VMissing)] with
        | inr d => (inr d, <[key := d]> store)
        | inl e => (inl e, store)
        end
    end.

(** Descriptors are mutated in place: every attribute assignment on
    [current] is an update of the store entry. *)
Definition assign (key attr : string) (v : val) : M (gmap string obj) unit :=
  modify (fun store => alter (fun d => setattr d attr v) key store).

(** One turn of the loop over [command.clean_params.items()]. *)
Definition infer_option (excluded : list string) (annotations : gmap string val)
    (key : string) (p : parameter) : M (gmap string obj) unit :=
  if bool_decide (key ∈ excluded) then ret tt
  else
    let* current := getitem key in
    match inspect.default p with
    | None => assign key "required" (VBool true)
    | Some d =>
        assign key "required" (VBool false) ;;;
        assign key "default" d ;;;
        match annotations !! key with
        | Some annotation =>
            if truthy annotation then
              fun store =>
                match store !! key with
                | None => (inr tt, store)
                | Some cur =>
                    match resolve_option_annotation cur annotation with
                    | (cur', None) => (inr tt, <[key := cur']> store)
                    | (cur', Some (TypeError _)) =>
                        (inr tt, <[key := setattr cur' "type" (VOptionType string_t)]> store)
                    | (cur', Some e) => (inl e, <[key := cur']> store)
                    end
                end
            else ret tt
        | None => ret tt
        end
    end.

Fixpoint infer_options (excluded : list string) (annotations : gmap string val)
    (params : list (string * parameter)) : M (gmap string obj) unit :=
  match params with
  | [] => ret tt
  | (key, p) :: rest =>
      infer_option excluded annotations key p ;;;
      infer_options excluded annotations rest
  end.

(** Lines 85-95: the resolved name, description and parent. *)
Definition resolve_name (k : inject_kwargs) (c : command) : string :=
  match name k with Some n => n | None => cmd_name c end.

Definition resolve_description (k : inject_kwargs) (c : command) : option string :=
  match description k with
  | Some d => Some d
  | None =>
      if negb (String.eqb (short_doc c) "") then Some (slice_to 100 (short_doc c))
      else None
  end.

Definition resolve_parent (k : inject_kwargs) (c : command) : option string :=
  match parent k with
  | Some p => Some p
  | None => match cmd_parent c with Some (Some p) => Some p | _ => None end
  end.

Definition no_description (f : callback) : exn :=
  ValueError ("tried to convert " ++ repr_str (fn_name f)
              ++ " into an application command, but it has no description").

(** Run a computation over the descriptor store on the callback's
    [__compat_application_command_options__]. *)
Definition on_options {A} (m : M (gmap string obj) A) : M reg A :=
  fun r =>
    match compat_options (fn r) with
    | Some store =>
        let '(a, store') := m store in (a, set_fn (set_options store') r)
    | None => (inl (AttributeError "__compat_application_command_options__"), r)
    end.

(** The arguments of the [ApplicationCommandMeta(...)] call (lines 152-171),
    for the callback object [f] as the loop left it. *)
Definition application_command_of (self : injector) (k : inject_kwargs)
    (rand : string) (c : command) (description' : string) (f : callback) : schema :=
  {| s_ident := rand;
     s_annotations := fn_annotations f;
     s_options := default ∅ (compat_options f);
     s_type := type k;
     s_name := resolve_name k c;
     s_description := description';
     s_parent := resolve_parent k c;
     s_default_permission := default_permission k;
     s_option_kwargs := option_kwargs k;
     s_guild_id := guild_id k;
     s_tree := match tree k with Some t => t | None => inj_tree self end;
     s_callback_kwargs :=
       filter (fun key => key ∉ excluded_options k) (clean_params c).*1 |}.

(** The decorator rebinds its closure variables [name], [description] and
    [parent] ([nonlocal]): a decorator object applied to a second command
    starts from these. *)
Definition rebound (k : inject_kwargs) (c : command) : inject_kwargs :=
  {| name := Some (resolve_name k c);
     type := type k;
     description := resolve_description k c;
     parent := resolve_parent k c;
     default_permission := default_permission k;
     option_kwargs := option_kwargs k;
     guild_id := guild_id k;
     tree := tree k;
     excluded_options := excluded_options k |}.

(** The decorator returned by [Injector.inject], applied to a plain callback
    ([None]) or to a command.  [k] holds the closure variables as they are
    when the decorator is applied, [rand] is [os.urandom(16).hex()]. *)
Definition Injector_inject (self : injector) (k : inject_kwargs) (rand : string)
    (func : option command) : M reg unit :=
  match func with
  | None =>
      modify (set_fn (set_compat_inject
        {| p_self := self; p_name := name k; p_type := type k;
           p_description := description k; p_parent := parent k;
           p_default_permission := default_permission k;
           p_option_kwargs := option_kwargs k; p_guild_id := guild_id k;
           p_tree := tree k |}))
  | Some c =>
      let* r := get in
      match resolve_description k c with
      | None => raise (no_description (fn r))
      | Some description' =>
          if String.eqb description' "" then raise (no_description (fn r))
          else
            (if compat_options (fn r) is None
             then modify (set_fn (set_options ∅)) else ret tt) ;;;
            on_options (infer_options (excluded_options k) (fn_annotations (fn r))
                          (clean_params c)) ;;;
            let* r := get in
            let application_command :=
              application_command_of self k rand c description' (fn r) in
            modify (set_fn (set_application_command application_command)) ;;;
            modify (add_application_command application_command (guild_id k))
      end
  end.

(** Calling the stored partial with no further argument: every keyword it
    holds is passed on, anything else takes [Injector.inject]'s default. *)
Definition call_pending (p : pending) : injector * inject_kwargs :=
  (p_self p,
   {| name := p_name p; type := p_type p; description := p_description p;
      parent := p_parent p; default_permission := p_default_permission p;
      option_kwargs := p_option_kwargs p; guild_id := p_guild_id p;
      tree := p_tree p; excluded_options := [] |}).

(** The keyword arguments of [override_option]; [None]: not passed. *)
Record override_kwargs := {
  o_type : option val;
  o_name : option val;
  o_description : option val;
  o_required : option val;
  o_optional : option val;
  o_choices : option val;
  o_channel_types : option val;
  o_min_value : option val;
  o_max_value : option val;
  o_default : option val;
}.

(** The [kwargs] dict of [override_option]'s decorator, in its order, each
    parameter bound to what was passed or to its declared default. *)
Definition bound_kwargs (o : override_kwargs) : list (string * val) :=
  [ ("type", default VMissing (o_type o));
    ("name", default VMissing (o_name o));
    ("description", default VMissing (o_description o));
    ("required", default VMissing (o_required o));
    ("optional", default VMissing (o_optional o));
    ("choices", default VMissing (o_choices o));
    ("channel_types", default VMissing (o_channel_types o));
    ("min_value", default VMissing (o_min_value o));
    ("max_value", default VMissing (o_max_value o));
    ("default", default VNone (o_default o)) ].

(** The copying loop (lines 264-268) over the remaining [kwargs]. *)
Fixpoint copy_fields (param_name : string) (new : obj) (kwargs : list (string * val))
    : M (gmap string obj) unit :=
  match kwargs with
  | [] => ret tt
  | (key, value) :: rest =>
      if is_missing value then copy_fields param_name new rest
      else
        let* v := lift (getattr new key) in
        assign param_name key v ;;;
        copy_fields param_name new rest
  end.

(** The decorator returned by [override_option]. *)
Definition override_option (param_name : string) (o : override_kwargs) : M reg unit :=
  let* r := get in
  (if compat_options (fn r) is None
   then modify (set_fn (set_options ∅)) else ret tt) ;;;
  let* current := on_options (getitem param_name) in
  let* new := lift (option_ (bound_kwargs o)) in
  on_options (copy_fields param_name new (bound_kwargs o)).

(** [describe(param_name, description)]: [override_option] with the
    description as the only keyword. *)
Definition description_only (description : string) : override_kwargs :=
  {| o_type := None; o_name := None; o_description := Some (VStr description);
     o_required := None; o_optional := None; o_choices := None;
     o_channel_types := None; o_min_value := None; o_max_value := None;
     o_default := None |}.

Definition describe (param_name description : string) : M reg unit :=
  override_option param_name (description_only description).

(** The decorator returned by the module level [inject]. *)
Definition inject (k : inject_kwargs) (rand : string) (func : option command)
    : M reg unit :=
  match func with
  | Some c =>
      let* r := get in
      match compat_injector r with
      | Some i => Injector_inject i k rand (Some c)
      | None => ret tt
      end
  | None => modify (set_fn (set_injection_kwargs k))
  end.

(** [CompatBotMixin.add_command]; [self_injector] is [self._injector]. *)
Definition add_command (self_injector : injector) (rand : string) (c : command)
    : M reg unit :=
  let* r := get in
  match compat_inject (fn r) with
  | Some p =>
      let '(i, k) := call_pending p in Injector_inject i k rand (Some c)
  | None =>
      match compat_injection_kwargs (fn r) with
      | Some k => Injector_inject self_injector k rand (Some c)
      | None => ret tt
      end
  end ;;;
  modify (set_compat_injector self_injector) ;;;
  modify (add_legacy_command (cmd_name c)).

End Registration.

(** ** Invocation: the synthetic message and the interaction aware context *)

Module Runtime.

Abbreviation kwargs := (gmap string val).

(** The host operations the adapter can run, each with the interaction id
    or the arguments it was awaited with. *)
Inductive call :=
  | response_send_message (i : Z) (content : val) (kw : kwargs)
  | followup_send (i : Z) (content : val) (kw : kwargs)
  | response_defer (i : Z) (loading ephemeral : bool)
  | response_edit_message (i : Z) (kw : kwargs)
  | edit_original_message (i : Z) (kw : kwargs)
  | Context_send (content : val) (kw : kwargs)
  | Context_reply (content : val) (kw : kwargs)
  | PartialMessage_edit (kw : kwargs).

(** The host side of an invocation: the interactions whose response is done
    ([InteractionResponse.is_done]) and the host operations run so far. *)
Record world := { responded : gset Z; calls : list call }.

Definition log (c : call) (w : world) : world :=
  {| responded := responded w; calls := calls w ++ [c] |}.

Definition mark_responded (i : Z) (w : world) : world :=
  {| responded := {[i]} ∪ responded w; calls := calls w |}.

(** Calling an [async def] builds a coroutine object; its body runs when the
    object is awaited. *)
Definition coroutine (A : Type) : Type := M world A.
Definition await {A} (c : coroutine A) : M world A := c.

(** An expression statement: the value is built and dropped. *)
Definition expression_statement {A} (v : A) : M world unit := ret tt.

(** Modelled from the spec: the platform behind the host interaction object
    is not part of the repository; [accepts] says whether the platform call
    behind a host operation goes through ([HTTPException] otherwise). *)
Class Platform := { accepts : call -> bool }.

Section Adapter.
Context `{Platform}.

Definition platform (c : call) : M world unit :=
  if accepts c then ret tt else raise HTTPException.

(** Modelled from the spec: [interaction.response.is_done()], the response
    phase of the interaction (section 4.6: NOT_RESPONDED / RESPONDED). *)
Definition is_done (i : Z) (w : world) : bool := bool_decide (i ∈ responded w).

(** Modelled from the spec: an operation of [interaction.response] that
    opens the response ([respond], [defer], the response edit): it fails
    with [InteractionResponded] when the response is done, otherwise asks
    the platform and moves the phase to RESPONDED once that went through. *)
Definition opening (i : Z) (c : call) : coroutine unit :=
  modify (log c) ;;;
  let* w := get in
  if is_done i w then raise InteractionResponded
  else platform c ;;; modify (mark_responded i).

(** Modelled from the spec: the other host operations ([followup],
    [edit_original], and the legacy send, reply and edit of the base
    classes) ask the platform and leave the phase alone. *)
Definition plain (c : call) : coroutine unit :=
  modify (log c) ;;; platform c.

(** [MakeshiftMessage], as [from_interaction] builds it. *)
Record MakeshiftMessage := {
  m_id : Z;
  m_interaction : Z;
  m_content : string;
}.

Definition from_interaction (interaction : Z) : MakeshiftMessage :=
  {| m_id := interaction; m_interaction := interaction; m_content := "" |}.

(** [MakeshiftMessage.edit]. *)
Definition edit (self : MakeshiftMessage) (kw : kwargs) : M world unit :=
  let* w := get in
  if is_done (m_interaction self) w then
    await (plain (edit_original_message (m_interaction self) kw))
  else
    await (opening (m_interaction self) (response_edit_message (m_interaction self) kw)).

(** [ctx.message] is a real message or a synthetic one. *)
Inductive message :=
  | Message
  | Makeshift (m : MakeshiftMessage).

(** [InteractionAwareContext]. *)
Record InteractionAwareContext := {
  ctx_message : message;
  interaction : option Z;
}.

(** [InteractionAwareContext.__init__]. *)
Definition new_context (m : message) : InteractionAwareContext :=
  {| ctx_message := m;
     interaction := match m with Makeshift mm => Some (m_interaction mm) | Message => None end |}.

Definition is_interaction (self : InteractionAwareContext) : bool :=
  match interaction self with Some _ => true | None => false end.

(** [kwargs.pop(key, None)] for each of the four keys. *)
Definition pop_all (keys : list string) (kw : kwargs) : kwargs :=
  fold_left (fun acc key => delete key acc) keys kw.

Definition stripped (kw : kwargs) : kwargs :=
  pop_all ["reference"; "mention_after"; "delete_after"; "nonce"] kw.

(** [InteractionAwareContext.send]; the legacy path returns the message the
    base class sent. *)
Definition send (self : InteractionAwareContext) (content : val) (kw : kwargs)
    : M world val :=
  match interaction self with
  | Some i =>
      let kw := stripped kw in
      let* w := get in
      (if is_done i w then await (plain (followup_send i content kw))
       else await (opening i (response_send_message i content kw))) ;;;
      ret VNone
  | None =>
      let kw := delete "ephemeral" kw in
      await (plain (Context_send content kw)) ;;;
      ret (VClass "discord.Message")
  end.

(** [InteractionAwareContext.defer]. *)
Definition defer (self : InteractionAwareContext) (loading ephemeral : bool)
    : M world unit :=
  match interaction self with
  | Some i => expression_statement (opening i (response_defer i loading ephemeral))
  | None => ret tt
  end.

(** [InteractionAwareContext.reply]; [depth] is the number of further
    nested calls the interpreter allows before [RecursionError]. *)
Fixpoint reply (depth : nat) (self : InteractionAwareContext) (content : val)
    (kw : kwargs) : M world val :=
  if is_interaction self then await (send self content kw)
  else
    match depth with
    | O => raise RecursionError
    | S depth' => await (reply depth' self content kw)
    end.

(** Successive [send]s on one context, whatever each one raises. *)
Fixpoint send_each (self : InteractionAwareContext) (msgs : list (val * kwargs))
    (w : world) : world :=
  match msgs with
  | [] => w
  | (content, kw) :: rest => send_each self rest (send self content kw w).2
  end.

End Adapter.
End Runtime.

(** ** Vocabulary of the statements *)

Section Vocabulary.
Context `{Host}.

(** The descriptor [options[key]] evaluates to on a given store. *)
Definition descriptor_at (store : gmap string obj) (key : string) : exn + obj :=
  match store !! key with
  | Some d => inr d
  | None => option_ [("description", VMissing)]
  end.

(** What lines 114-119 write on a descriptor. *)
Definition marked (p : parameter) (d : obj) : obj :=
  match inspect.default p with
  | None => setattr d "required" (VBool true)
  | Some dv => setattr (setattr d "required" (VBool false)) "default" dv
  end.

(** The loop reaches the resolver for [key]: the parameter has a default and
    a truthy annotation. *)
Definition resolved (annotations : gmap string val) (key : string) (p : parameter)
    : bool :=
  match inspect.default p, annotations !! key with
  | Some _, Some annotation => truthy annotation
  | _, _ => false
  end.

(** The store a registration starts from. *)
Definition options_of (f : callback) : gmap string obj :=
  default ∅ (compat_options f).

(** [Injector.inject] on a command, written out: the description gate, the
    loop over the store, the hand over. *)
Definition registration (self : injector) (k : inject_kwargs) (rand : string)
    (c : command) (r : reg) : (exn + unit) * reg :=
  match resolve_description k c with
  | None => (inl (no_description (fn r)), r)
  | Some d =>
      if String.eqb d "" then (inl (no_description (fn r)), r)
      else
        match infer_options (excluded_options k) (fn_annotations (fn r))
                (clean_params c) (options_of (fn r)) with
        | (inl e, store) => (inl e, set_fn (set_options store) r)
        | (inr _, store) =>
            let r1 := set_fn (set_options store) r in
            let s := application_command_of self k rand c d (fn r1) in
            (inr tt, add_application_command s (guild_id k)
                       (set_fn (set_application_command s) r1))
        end
  end.


(** [inject] with another exclusion set. *)
Definition with_excluded (excluded : list string) (k : inject_kwargs) : inject_kwargs :=
  {| name := name k; type := type k; description := description k;
     parent := parent k; default_permission := default_permission k;
     option_kwargs := option_kwargs k; guild_id := guild_id k; tree := tree k;
     excluded_options := excluded |}.

End Vocabulary.

(** ** One host, to run the model on concrete inputs

    [option] keeps every keyword it is given as an attribute of the
    descriptor, rejects [required] together with [optional], and folds
    [optional] into [required]; the resolver knows the builtin names and
    raises [TypeError] on anything else; the platform takes every call. *)

Module Sample.

Definition keyword (kw : list (string * val)) (key : string) (dflt : val) : val :=
  default dflt ((list_to_map kw : gmap string val) !! key).

Definition make_option (kw : list (string * val)) : exn + obj :=
  let required := keyword kw "required" VMissing in
  let optional := keyword kw "optional" VMissing in
  if negb (is_missing required) && negb (is_missing optional)
  then inl (ValueError "only one of required or optional may be specified")
  else inr (list_to_map
    [ ("type", keyword kw "type" VMissing);
      ("name", keyword kw "name" VMissing);
      ("description", keyword kw "description" VMissing);
      ("required",
        if negb (is_missing required) then required
        else if negb (is_missing optional) then VBool (negb (truthy optional))
        else VBool false);
      ("choices", keyword kw "choices" VMissing);
      ("channel_types", keyword kw "channel_types" VMissing);
      ("min_value", keyword kw "min_value" VMissing);
      ("max_value", keyword kw "max_value" VMissing);
      ("default", keyword kw "default" VNone) ]).

Definition builtin (qualname : string) : option option_type :=
  if String.eqb qualname "int" then Some integer
  else if String.eqb qualname "str" then Some string_t
  else if String.eqb qualname "bool" then Some boolean
  else if String.eqb qualname "float" then Some number
  else None.

Definition resolve (current : obj) (annotation : val) : obj * option exn :=
  match annotation with
  | VClass q | VStr q =>
      match builtin q with
      | Some t => (setattr current "type" (VOptionType t), None)
      | None => (current, Some (TypeError "unsupported annotation"))
      end
  | _ => (current, Some (TypeError "unsupported annotation"))
  end.

Definition host : Host :=
  {| option_ := make_option; resolve_option_annotation := resolve |}.

Definition platform : Runtime.Platform := {| Runtime.accepts := fun _ => true |}.

End Sample.

(** ** The commands of the examples

    [add] is the command of [inject]'s docstring; [greet] has a parameter
    with a default and no annotation. *)

Module Example.

Definition no_attributes (n : string) (annotations : gmap string val) : callback :=
  {| fn_name := n; fn_annotations := annotations; compat_options := None;
     compat_inject := None; compat_injection_kwargs := None;
     compat_application_command := None |}.

Definition fresh (f : callback) : reg :=
  {| fn := f; compat_injector := None; application_commands := [];
     legacy_commands := [] |}.

Definition inject_with (guild : option Z) (excluded : list string) : inject_kwargs :=
  {| name := None; type := chat_input; description := None; parent := None;
     default_permission := true; option_kwargs := None; guild_id := guild;
     tree := None; excluded_options := excluded |}.

Definition guild : inject_kwargs := inject_with (Some 123456789) [].

Definition the_injector : injector := {| inj_tree := "discord-ext-compat-injector" |}.

Definition add_fn : callback :=
  no_attributes "add"
    (<["ctx" := VClass "commands.Context"]>
       (<["a" := VClass "int"]> (<["b" := VClass "int"]> ∅))).

Definition add : command :=
  {| cmd_name := "add"; qualified_name := "add";
     short_doc := "Adds two numbers together"; cmd_parent := None;
     clean_params := [("a", {| inspect.default := None |});
                      ("b", {| inspect.default := None |})] |}.

Definition greet_fn : callback := no_attributes "greet" ∅.

Definition greet : command :=
  {| cmd_name := "greet"; qualified_name := "greet";
     short_doc := "Greets"; cmd_parent := None;
     clean_params := [("times", {| inspect.default := Some (VInt 3) |})] |}.

(** The state a decorator leaves. *)
Definition after {A} (m : M reg A) (r : reg) : reg := (m r).2.

(** [@describe("a", ...)] above [@describe("b", ...)] on [add]. *)
Definition add_described : reg :=
  after (describe (H := Sample.host) "a" "The first number")
    (after (describe (H := Sample.host) "b" "The second number") (fresh add_fn)).

(** [@override_option("times", required=True, default=7,
    description="How often")] on [greet]. *)
Definition greet_overridden : reg :=
  after (override_option (H := Sample.host) "times"
           {| o_type := None; o_name := None;
              o_description := Some (VStr "How often");
              o_required := Some (VBool true); o_optional := None;
              o_choices := None; o_channel_types := None; o_min_value := None;
              o_max_value := None; o_default := Some (VInt 7) |})
    (fresh greet_fn).

(** [@override_option("a", default=5, description="x")] on [add]. *)
Definition add_with_default : reg :=
  after (override_option (H := Sample.host) "a"
           {| o_type := None; o_name := None; o_description := Some (VStr "x");
              o_required := None; o_optional := None; o_choices := None;
              o_channel_types := None; o_min_value := None; o_max_value := None;
              o_default := Some (VInt 5) |})
    (fresh add_fn).

End Example.

(** ** The entry point callback and the bot facade *)

Module Dispatch.
Import Runtime.

(** [isinstance(exc, commands.CommandError)] on the exceptions of [exn]:
    [BadArgument] and [CheckFailure] derive from [CommandError]. *)
Definition is_command_error (e : exn) : bool :=
  match e with
  | BadArgument _ | CheckFailure _ => true
  | _ => false
  end.

(** The classes [get_context] can be asked for. *)
Inductive context_class :=
  | InteractionAwareContext_class
  | subclass (qualname : string)
  | unrelated (qualname : string).

(** [issubclass(cls, InteractionAwareContext)]. *)
Definition issubclass (cls : context_class) : bool :=
  match cls with
  | unrelated _ => false
  | _ => true
  end.

(** What an invocation does besides the host operations of [Runtime]:
    events handed to [bot.dispatch], the call of the handler (with the cog
    it is bound to, if any, and its keyword arguments), the call of the
    command's [dispatch_error], and the warning of [get_context]. *)
Inductive step :=
  | dispatched (event : string)
  | invoked (cog : option string) (kw : list (string * val))
  | error_dispatched (e : exn)
  | warned.

Record run := { host : world; steps : list step }.

(** The bot the module extends and the command that is run: the methods of
    the base class, [bot.can_run], the handler, and the error hook.  All of
    them are awaited and may act on the host. *)
Class Bot := {
  super_get_prefix : message -> M world (string + list string);
  super_get_context : message -> context_class -> M world (option bool);
  can_run : InteractionAwareContext -> M world bool;
  func : option string -> InteractionAwareContext -> list (string * val) -> M world unit;
  dispatch_error : InteractionAwareContext -> exn -> M world unit;
}.

Section Facade.
Context `{Bot}.

Definition on_host {A} (m : M world A) : M run A :=
  fun r => let '(a, w) := m (host r) in (a, {| host := w; steps := steps r |}).

Definition emit (s : step) : M run unit :=
  modify (fun r => {| host := host r; steps := steps r ++ [s] |}).

(** [try: ... except ...]: the outcome of the body, as a value. *)
Definition attempt {S A} (m : M S A) : M S (exn + A) :=
  fun s => let '(a, s') := m s in (inr a, s').

(** [CompatBotMixin.get_prefix]. *)
Definition get_prefix (m : message) : M world (string + list string) :=
  match m with
  | Makeshift _ => ret (inl "/")
  | Message => super_get_prefix m
  end.

(** [CompatBotMixin.get_context]; the result is [None], or whether the
    context the base class built has a command. *)
Definition get_context (m : message) (cls : option context_class)
    : M run (option bool) :=
  (match cls with
   | Some k => if negb (issubclass k) then emit warned else ret tt
   | None => ret tt
   end) ;;;
  on_host (super_get_context m (default InteractionAwareContext_class cls)).

(** The dict comprehension of line 129: [getattr(attrs, k)] for the keys in
    their order. *)
Fixpoint collect (attrs : obj) (keys : list string) : exn + list (string * val) :=
  match keys with
  | [] => inr []
  | k :: rest =>
      match getattr attrs k with
      | inl e => inl e
      | inr v =>
          match collect attrs rest with
          | inl e => inl e
          | inr l => inr ((k, v) :: l)
          end
      end
  end.

(** Lines 130-131: the synthetic message and its content. *)
Definition synthesize (c : command) (interaction : Z) : MakeshiftMessage :=
  {| m_id := m_id (from_interaction interaction);
     m_interaction := m_interaction (from_interaction interaction);
     m_content := "/" ++ qualified_name c |}.

(** The entry point callback (lines 128-150) of the command [c] registered
    with the exclusion set [excluded] and bound to [cog].  The client of the
    interaction is taken to be a bot of this module, so that
    [bot.get_context] is the one above. *)
Definition callback (c : command) (excluded : list string) (cog : option string)
    (attrs : obj) (interaction : Z) : M run unit :=
  let* kwargs :=
    lift (collect attrs (filter (fun key => key ∉ excluded) (clean_params c).*1)) in
  let message := Makeshift (synthesize c interaction) in
  let* found := get_context message None in
  match found with
  | None | Some false => ret tt
  | Some true =>
      let ctx := new_context message in
      emit (dispatched "command") ;;;
      let* outcome :=
        attempt (let* allowed := on_host (can_run ctx) in
                 if allowed then
                   emit (invoked cog kwargs) ;;; on_host (func cog ctx kwargs)
                 else raise (CheckFailure "The global check once functions failed.")) in
      match outcome with
      | inl exc =>
          if is_command_error exc then
            emit (error_dispatched exc) ;;; on_host (dispatch_error ctx exc)
          else raise exc
      | inr _ => emit (dispatched "command_completion")
      end
  end.

End Facade.

(** [Injector.__init__]: the tree given, or one of the module's own. *)
Definition new_injector (tree : option string) : injector :=
  {| inj_tree := default "discord-ext-compat-injector" tree |}.

End Dispatch.

(** One bot, to run the entry point: the base class resolves a context as
    told, [can_run] answers as told, the handler sends one message and then
    returns or raises as told, the error hook returns. *)
Module SampleBot.
Import Runtime Dispatch.

Definition bot (found : option bool) (allowed : exn + bool) (raised : option exn) : Bot :=
  {| super_get_prefix := fun _ => ret (inl "!");
     super_get_context := fun _ _ => ret found;
     can_run := fun _ => lift allowed;
     func := fun _ ctx kw =>
       send (H := Sample.platform) ctx (VStr "2 + 3 = 5") ∅ ;;;
       match raised with Some e => raise e | None => ret tt end;
     dispatch_error := fun _ _ => ret tt |}.

Definition start : run := {| host := {| responded := ∅; calls := [] |}; steps := [] |}.

Definition two_three : obj := <["a" := VInt 2]> (<["b" := VInt 3]> ∅).

End SampleBot.

(** ** Vocabulary of the further statements *)



(** From one state of the host to a later one: at most one more host
    operation, and no response taken back. *)
Definition one_step (w w' : Runtime.world) : Prop :=
  (Runtime.calls w' = Runtime.calls w \/
   exists c, Runtime.calls w' = (Runtime.calls w ++ [c])%list) /\
  Runtime.responded w ⊆ Runtime.responded w'.

Section DispatchVocabulary.
Import Runtime Dispatch.
Context `{Bot}.
Local Open Scope list_scope.
Implicit Types (r : run) (kw : list (string * val)) (cog : option string).

(** What [except commands.CommandError] does with an exception of the
    [try] body, from the state the body left. *)
Definition handled (ctx : InteractionAwareContext) (e : exn) (r : run)
    : (exn + unit) * run :=
  if is_command_error e then
    let '(a, w) := dispatch_error ctx e (host r) in
    (a, {| host := w; steps := steps r ++ [error_dispatched e] |})
  else (inl e, r).

(** The callback, past the keyword collection and the context resolution. *)
Definition dispatched_run (ctx : InteractionAwareContext) cog kw r
    : (exn + unit) * run :=
  let r0 := {| host := host r; steps := steps r ++ [dispatched "command"] |} in
  match can_run ctx (host r) with
  | (inl e, w) => handled ctx e {| host := w; steps := steps r0 |}
  | (inr false, w) =>
      handled ctx (CheckFailure "The global check once functions failed.")
        {| host := w; steps := steps r0 |}
  | (inr true, w) =>
      let r1 := {| host := w; steps := steps r0 ++ [invoked cog kw] |} in
      match func cog ctx kw w with
      | (inl e, w') => handled ctx e {| host := w'; steps := steps r1 |}
      | (inr _, w') =>
          (inr tt, {| host := w';
                      steps := steps r1 ++ [dispatched "command_completion"] |})
      end
  end.

(** The steps one run of the callback can add, with its result. *)
Inductive callback_shape cog kw : exn + unit -> list step -> Prop :=
  | shape_silent res : callback_shape cog kw res []
  | shape_completed :
      callback_shape cog kw (inr tt)
        [dispatched "command"; invoked cog kw; dispatched "command_completion"]
  | shape_refused e res :
      is_command_error e = true ->
      callback_shape cog kw res [dispatched "command"; error_dispatched e]
  | shape_failed e res :
      is_command_error e = true ->
      callback_shape cog kw res
        [dispatched "command"; invoked cog kw; error_dispatched e]
  | shape_escaped_check e :
      is_command_error e = false ->
      callback_shape cog kw (inl e) [dispatched "command"]
  | shape_escaped e :
      is_command_error e = false ->
      callback_shape cog kw (inl e) [dispatched "command"; invoked cog kw].

End DispatchVocabulary.

Section RegistrationVocabulary.
Context `{Host}.

(** What one turn of the loop makes of the descriptor [d] of a parameter
    that is not excluded: the descriptor it leaves, and the exception that
    leaves the loop, if any. *)
Definition inferred (annotations : gmap string val) (key : string) (p : parameter)
    (d : obj) : obj * option exn :=
  if resolved annotations key p then
    match annotations !! key with
    | Some annotation =>
        match resolve_option_annotation (marked p d) annotation with
        | (d', None) => (d', None)
        | (d', Some (TypeError _)) => (setattr d' "type" (VOptionType string_t), None)
        | (d', Some e) => (d', Some e)
        end
    | None => (marked p d, None)
    end
  else (marked p d, None).

End RegistrationVocabulary.

(** Further inputs: a platform that refuses every call, a command whose
    parameters have defaults ([times: int = 3], [label: Tag = None] with a
    class the sample resolver does not know), and override keywords that
    give both [required] and [optional]. *)
Module More.
Import Runtime.

Definition refusing : Platform := {| accepts := fun _ => false |}.

Definition nothing : world := {| responded := ∅; calls := [] |}.

Definition count_fn : callback :=
  Example.no_attributes "count"
    (<["times" := VClass "int"]> (<["label" := VClass "Tag"]> ∅)).

Definition count : command :=
  {| cmd_name := "count"; qualified_name := "count";
     short_doc := "Counts"; cmd_parent := None;
     clean_params := [("times", {| inspect.default := Some (VInt 3) |});
                      ("label", {| inspect.default := Some VNone |})] |}.

Definition both_flags : override_kwargs :=
  {| o_type := None; o_name := None; o_description := Some (VStr "x");
     o_required := Some (VBool true); o_optional := Some (VBool true);
     o_choices := None; o_channel_types := None; o_min_value := None;
     o_max_value := None; o_default := None |}.

Definition named : override_kwargs :=
  {| o_type := None; o_name := Some (VStr "first"); o_description := Some (VStr "x");
     o_required := None; o_optional := None;
     o_choices := None; o_channel_types := None; o_min_value := None;
     o_max_value := None; o_default := None |}.

End More.

(** * Properties *)

(** ** Text *)


(** ** [Range.convert] *)

Section RangeFacts.
Import Range.

Lemma convert_inr (self : t) (argument : string) (v : Z) :
  convert self argument = inr v ->
  int_of_str argument = Some v /\ min_value self <= v <= max_value self.
Proof.
  unfold convert. destruct (int_of_str argument) as [n|]; [|discriminate].
  destruct (min_value self <=? n) eqn:Hlo; destruct (n <=? max_value self) eqn:Hhi;
    simpl; try discriminate.
  intros [= <-]. split; [reflexivity|lia].
Qed.

Lemma convert_inl (self : t) (argument : string) (e : exn) :
  convert self argument = inl e -> e = bad_argument self argument.
Proof.
  unfold convert. destruct (int_of_str argument) as [n|].
  - destruct (_ && _); [discriminate|]. by intros [= <-].
  - by intros [= <-].
Qed.

(** C10. With [min_value = 1] and [max_value = 10]: the token 5 converts to
    the integer 5; the tokens 15 and abc raise [BadArgument] with a message
    that names the bounds 1 and 10; every failure carries such a message, and
    every value returned is the integer [int] parsed from the token, within
    the bounds. *)
Theorem convert_range_1_10 :
  let self := {| min_value := 1; max_value := 10 |} in
  convert self "5" = inr 5 /\
  convert self "15"
    = inl (BadArgument "Expected a number between 1 and 10, but got 15 instead") /\
  convert self "abc"
    = inl (BadArgument "Expected a number between 1 and 10, but got 'abc' instead") /\
  (forall argument e, convert self argument = inl e ->
     exists got, e = BadArgument ("Expected a number between 1 and 10, but got " ++ got)) /\
  (forall argument v, convert self argument = inr v ->
     int_of_str argument = Some v /\ 1 <= v <= 10).
Proof.
  intros self. repeat split.
  - intros argument e He. apply convert_inl in He. subst e.
    exists (repr_argument argument ++ " instead"). reflexivity.
  - by apply convert_inr in H as [? _].
  - apply convert_inr in H as [_ Hb]. apply Hb.
  - apply convert_inr in H as [_ Hb]. apply Hb.
Qed.

End RangeFacts.

(** ** The context adapter *)

Section AdapterFacts.
Import Runtime.
Context `{Platform}.
Local Open Scope list_scope.

Lemma send_not_responded self i content kw w :
  interaction self = Some i ->
  i ∉ responded w ->
  accepts (response_send_message i content (stripped kw)) = true ->
  send self content kw w
  = (inr VNone,
     mark_responded i (log (response_send_message i content (stripped kw)) w)).
Proof.
  intros Hi Hw Hok. unfold send, bind, get, await, opening, bind, modify, get, platform.
  rewrite Hi. simpl. unfold is_done. rewrite !bool_decide_eq_false_2 by done.
  simpl. by rewrite Hok.
Qed.

Lemma send_responded self i content kw w :
  interaction self = Some i ->
  i ∈ responded w ->
  (send self content kw w).2 = log (followup_send i content (stripped kw)) w.
Proof.
  intros Hi Hw. unfold send, bind, get, await, plain, bind, modify, platform.
  rewrite Hi. simpl. unfold is_done. rewrite bool_decide_eq_true_2 by done.
  simpl. by destruct (accepts _).
Qed.

Lemma send_each_responded self i msgs : forall w,
  interaction self = Some i ->
  i ∈ responded w ->
  calls (send_each self msgs w)
  = calls w ++ map (fun m => followup_send i m.1 (stripped m.2)) msgs.
Proof.
  induction msgs as [|[content kw] rest IH]; intros w Hi Hw; simpl.
  - by rewrite app_nil_r.
  - rewrite (send_responded self i) by done.
    rewrite IH by done. simpl. by rewrite <- app_assoc.
Qed.

Lemma reply_interaction depth self content kw :
  is_interaction self = true -> reply depth self content kw = send self content kw.
Proof. intros Hi. destruct depth; simpl; by rewrite Hi. Qed.

(** C4. On an interaction backed context whose interaction has no response
    yet, a [send] the platform takes runs the initial response
    ([response.send_message]), returns, and leaves the response done; every
    [send] after it on the same context runs [followup.send] and nothing
    else. *)
Theorem send_phase_law self i content kw rest w :
  interaction self = Some i ->
  i ∉ responded w ->
  accepts (response_send_message i content (stripped kw)) = true ->
  let w1 := (send self content kw w).2 in
  (send self content kw w).1 = inr VNone /\
  is_done i w = false /\ is_done i w1 = true /\
  calls w1 = calls w ++ [response_send_message i content (stripped kw)] /\
  calls (send_each self rest w1)
  = calls w1 ++ map (fun m => followup_send i m.1 (stripped m.2)) rest.
Proof.
  intros Hi Hw Hok w1. subst w1.
  rewrite (send_not_responded self i) by done. simpl.
  repeat split.
  - unfold is_done. by apply bool_decide_eq_false_2.
  - unfold is_done. apply bool_decide_eq_true_2. set_solver.
  - apply (send_each_responded self i); [done|]. simpl. set_solver.
Qed.

(** C5. [MakeshiftMessage.edit] runs exactly one host operation: the
    response edit while the interaction has no response, the edit of the
    original response once it has one (in particular after a first [send]
    on the context of that message); it is never the message edit of the
    base class. *)
Theorem edit_law (self : MakeshiftMessage) kw w :
  let i := m_interaction self in
  calls (edit self kw w).2
  = calls w ++ [if is_done i w then edit_original_message i kw
                else response_edit_message i kw] /\
  (forall kw', calls (edit self kw w).2 <> calls w ++ [PartialMessage_edit kw']) /\
  (forall content kw0,
     i ∉ responded w ->
     accepts (response_send_message i content (stripped kw0)) = true ->
     let w1 := (send (new_context (Makeshift self)) content kw0 w).2 in
     calls (edit self kw w1).2 = calls w1 ++ [edit_original_message i kw]).
Proof.
  intros i.
  assert (Hcalls : forall w', calls (edit self kw w').2
    = calls w' ++ [if is_done i w' then edit_original_message i kw
                   else response_edit_message i kw]).
  { intros w'. unfold edit, bind, get, await, plain, opening, bind, modify, get, platform.
    fold i. destruct (is_done i w') eqn:Hd; simpl.
    - by destruct (accepts _).
    - unfold is_done in *. simpl. rewrite Hd. by destruct (accepts _). }
  split; [apply Hcalls|]. split.
  - intros kw' Heq. rewrite Hcalls in Heq. apply app_inv_head in Heq.
    by destruct (is_done i w).
  - intros content kw0 Hw Hok w1. rewrite Hcalls.
    subst w1. rewrite (send_not_responded _ i) by done.
    unfold is_done. simpl. rewrite bool_decide_eq_true_2 by set_solver. done.
Qed.

(** C6 (the code departs from the claim). [defer] builds the coroutine of
    [response.defer] and drops it: on every context it returns normally and
    leaves the host untouched, no deferral is requested; had the coroutine
    been awaited on an interaction that is already responded to, it would
    have raised [InteractionResponded]. *)
Theorem defer_awaits_nothing self loading ephemeral w :
  defer self loading ephemeral w = (inr tt, w) /\
  (forall i, interaction self = Some i -> i ∈ responded w ->
     (await (opening i (response_defer i loading ephemeral)) w).1
     = inl InteractionResponded).
Proof.
  split.
  - unfold defer. by destruct (interaction self).
  - intros i _ Hw. unfold await, opening, bind, modify, get. simpl.
    unfold is_done. simpl. by rewrite bool_decide_eq_true_2.
Qed.

(** C7 (the code departs from the claim). On a context that is not
    interaction backed, [reply] calls itself: whatever nesting depth the
    interpreter allows, it ends in [RecursionError] and the base class reply
    (or any other host operation) is never run. *)
Theorem reply_legacy_recurses depth content kw w :
  reply depth (new_context Message) content kw w = (inl RecursionError, w).
Proof. induction depth as [|d IH]; simpl; [done|apply IH]. Qed.

End AdapterFacts.

(** ** The loop over the parameters *)

Section InferenceFacts.
Context `{Host}.
Implicit Types (store : gmap string obj) (key : string) (p : parameter).

Lemma getitem_spec key store :
  getitem key store
  = match descriptor_at store key with
    | inr d => (inr d, <[key := d]> store)
    | inl e => (inl e, store)
    end.
Proof.
  unfold getitem, descriptor_at. destruct (store !! key) as [d|] eqn:Hk.
  - by rewrite insert_id.
  - by destruct (option_ _).
Qed.

Lemma assign_insert key attr v d store :
  assign key attr v (<[key := d]> store)
  = (inr tt, <[key := setattr d attr v]> store).
Proof. unfold assign, modify. by rewrite alter_insert_eq. Qed.

(** A parameter the resolver is not reached for: the descriptor is the one
    [options[key]] gave, with [required] (and [default]) written on it. *)
Lemma infer_option_marked excluded annotations key p store :
  key ∉ excluded ->
  resolved annotations key p = false ->
  infer_option excluded annotations key p store
  = match descriptor_at store key with
    | inr d => (inr tt, <[key := marked p d]> store)
    | inl e => (inl e, store)
    end.
Proof.
  intros Hex Hres. unfold infer_option.
  rewrite bool_decide_eq_false_2 by done.
  unfold bind at 1. rewrite getitem_spec.
  destruct (descriptor_at store key) as [e|d]; [done|].
  unfold marked, resolved in *. destruct (inspect.default p) as [dv|].
  - unfold bind. rewrite !assign_insert.
    destruct (annotations !! key) as [a|]; [|done]. by rewrite Hres.
  - by rewrite assign_insert.
Qed.

(** One turn writes at its own key only. *)
Lemma infer_option_other excluded annotations key p store key' :
  key' <> key ->
  (infer_option excluded annotations key p store).2 !! key' = store !! key'.
Proof.
  intros Hne. unfold infer_option. case_bool_decide; [done|].
  unfold bind at 1. rewrite getitem_spec.
  destruct (descriptor_at store key) as [e|d]; [done|].
  destruct (inspect.default p) as [dv|].
  - unfold bind. rewrite !assign_insert.
    destruct (annotations !! key) as [a|]; simpl.
    + destruct (truthy a); simpl; [|by rewrite lookup_insert_ne].
      rewrite lookup_insert_eq.
      destruct (resolve_option_annotation _ a) as [cur' [[]|]]; simpl;
        by rewrite !lookup_insert_ne.
    + by rewrite lookup_insert_ne.
  - rewrite assign_insert. simpl. by rewrite lookup_insert_ne.
Qed.

Lemma infer_options_other excluded annotations params : forall store key',
  key' ∉ params.*1 ->
  (infer_options excluded annotations params store).2 !! key' = store !! key'.
Proof.
  induction params as [|[key p] rest IH]; intros store key' Hnot; [done|].
  simpl in *. apply not_elem_of_cons in Hnot as [Hne Hrest].
  unfold bind.
  pose proof (infer_option_other excluded annotations key p store key' Hne) as Hstep.
  destruct (infer_option excluded annotations key p store) as [[e|[]] store1]; simpl in *.
  - done.
  - by rewrite IH.
Qed.

(** After a loop that went through, a parameter the resolver is not reached
    for holds the descriptor it had before, marked. *)
Lemma infer_options_marked excluded annotations params : forall store store' key p,
  NoDup params.*1 ->
  (key, p) ∈ params ->
  key ∉ excluded ->
  resolved annotations key p = false ->
  infer_options excluded annotations params store = (inr tt, store') ->
  exists d, descriptor_at store key = inr d /\ store' !! key = Some (marked p d).
Proof.
  induction params as [|[key0 p0] rest IH]; intros store store' key p Hnd Hin Hex Hres Hrun.
  { by apply elem_of_nil in Hin. }
  simpl in *. apply NoDup_cons in Hnd as [Hfresh Hnd].
  unfold bind in Hrun.
  apply elem_of_cons in Hin as [[= -> ->]|Hin].
  - rewrite infer_option_marked in Hrun by done.
    destruct (descriptor_at store key0) as [e|d]; [done|].
    exists d. split; [done|].
    pose proof (infer_options_other excluded annotations rest
                  (<[key0 := marked p0 d]> store) key0 Hfresh) as Hkeep.
    rewrite Hrun in Hkeep. simpl in Hkeep. by rewrite Hkeep, lookup_insert_eq.
  - assert (key <> key0) as Hne.
    { intros ->. apply Hfresh. apply list_elem_of_fmap. by exists (key0, p). }
    pose proof (infer_option_other excluded annotations key0 p0 store key Hne) as Hstep.
    destruct (infer_option excluded annotations key0 p0 store) as [[e|[]] store1];
      simpl in *; [done|].
    destruct (IH store1 store' key p Hnd Hin Hex Hres Hrun) as (d & Hd & Hstore).
    exists d. split; [|done].
    unfold descriptor_at in *. by rewrite <- Hstep.
Qed.


End InferenceFacts.

(** ** The injector *)

Section InjectorFacts.
Context `{Host}.
Local Open Scope list_scope.

Lemma Injector_inject_command self k rand c r :
  Injector_inject self k rand (Some c) r = registration self k rand c r.
Proof.
  unfold Injector_inject, registration, bind at 1, get.
  destruct (resolve_description k c) as [d|]; [|done].
  destruct (String.eqb d ""); [done|].
  unfold options_of, bind, on_options, modify, get.
  destruct r as [f inj apps legacy]. destruct f as [n ann [store|] pi pk pa]; simpl.
  - destruct (infer_options _ ann _ store) as [[e|[]] store']; done.
  - destruct (infer_options _ ann _ ∅) as [[e|[]] store']; done.
Qed.

(** A registration that went through appended one schema, built from the
    store the loop produced. *)
Lemma registration_inr self k rand c r r' :
  Injector_inject self k rand (Some c) r = (inr tt, r') ->
  exists d store,
    resolve_description k c = Some d /\ d <> "" /\
    infer_options (excluded_options k) (fn_annotations (fn r))
      (clean_params c) (options_of (fn r)) = (inr tt, store) /\
    let s := application_command_of self k rand c d (set_options store (fn r)) in
    s_options s = store /\ s_description s = d /\
    application_commands r' = application_commands r ++ [(s, guild_id k)].
Proof.
  rewrite Injector_inject_command. unfold registration.
  destruct (resolve_description k c) as [d|]; [|done].
  destruct (String.eqb d "") eqn:Hd; [done|]. apply String.eqb_neq in Hd.
  destruct (infer_options _ _ _ _) as [[e|[]] store]; [done|].
  intros [= <-]. exists d, store. done.
Qed.

End InjectorFacts.

Section RegistrationClaims.
Context `{Host}.
Local Open Scope list_scope.

Lemma registered_marked self k rand c r r' key p :
  NoDup (clean_params c).*1 ->
  (key, p) ∈ clean_params c ->
  key ∉ excluded_options k ->
  resolved (fn_annotations (fn r)) key p = false ->
  Injector_inject self k rand (Some c) r = (inr tt, r') ->
  exists s d,
    last (application_commands r') = Some (s, guild_id k) /\
    descriptor_at (options_of (fn r)) key = inr d /\
    s_options s !! key = Some (marked p d).
Proof.
  intros Hnd Hin Hex Hres Hrun.
  apply registration_inr in Hrun as (desc & store & _ & _ & Hloop & Hopts & _ & Happs).
  destruct (infer_options_marked _ _ _ _ _ _ _ Hnd Hin Hex Hres Hloop) as (d & Hd & Hstore).
  eexists _, d. split; [by rewrite Happs, last_snoc|]. split; [done|].
  by rewrite Hopts.
Qed.


(** C3 (the code departs from the claim). The loop assigns [required], and
    [default] for a parameter that has one, without looking at what the
    descriptor holds: whatever an override had put there, the schema carries
    the inferred values. *)
Theorem inference_overwrites_override self k rand c r r' key p :
  NoDup (clean_params c).*1 ->
  (key, p) ∈ clean_params c ->
  key ∉ excluded_options k ->
  resolved (fn_annotations (fn r)) key p = false ->
  Injector_inject self k rand (Some c) r = (inr tt, r') ->
  exists s final,
    last (application_commands r') = Some (s, guild_id k) /\
    s_options s !! key = Some final /\
    final !! "required"
      = Some (VBool (if inspect.default p is None then true else false)) /\
    (forall dv, inspect.default p = Some dv -> final !! "default" = Some dv).
Proof.
  intros Hnd Hin Hex Hres Hrun.
  destruct (registered_marked _ _ _ _ _ _ _ _ Hnd Hin Hex Hres Hrun) as (s & d & Hlast & Hd & Hs).
  exists s, (marked p d). repeat split; try done.
  - unfold marked, setattr. destruct (inspect.default p).
    + by rewrite lookup_insert_ne, lookup_insert_eq.
    + by rewrite lookup_insert_eq.
  - intros dv Hdv. unfold marked, setattr. rewrite Hdv. by rewrite lookup_insert_eq.
Qed.


(** C9 (the code departs from the claim). The partial stored on a plain
    callback holds every keyword of [inject] but [excluded_options]; binding
    it in [add_command] is the registration with an empty exclusion set, so
    a parameter excluded at decoration time is mapped by the entry point of
    the deferred registration and is not by the direct one. *)
Theorem deferred_inject_loses_excluded_options self bot k rand0 rand c r :
  let r1 := (Injector_inject self k rand0 None r).2 in
  (Injector_inject self k rand0 None r).1 = inr tt /\
  add_command bot rand c r1
  = (Injector_inject self (with_excluded [] k) rand (Some c) ;;;
     modify (set_compat_injector bot) ;;;
     modify (add_legacy_command (cmd_name c))) r1 /\
  (forall key r2 r3,
     key ∈ excluded_options k ->
     key ∈ (clean_params c).*1 ->
     add_command bot rand c r1 = (inr tt, r2) ->
     Injector_inject self k rand (Some c) r = (inr tt, r3) ->
     exists s2 s3,
       last (application_commands r2) = Some (s2, guild_id k) /\
       last (application_commands r3) = Some (s3, guild_id k) /\
       key ∈ s_callback_kwargs s2 /\ key ∉ s_callback_kwargs s3).
Proof.
  intros r1. split; [done|]. split; [done|].
  intros key r2 r3 Hex Hin Hdeferred Hdirect.
  change (add_command bot rand c r1)
    with ((Injector_inject self (with_excluded [] k) rand (Some c) ;;;
           modify (set_compat_injector bot) ;;;
           modify (add_legacy_command (cmd_name c))) r1) in Hdeferred.
  unfold bind, modify in Hdeferred.
  destruct (Injector_inject self (with_excluded [] k) rand (Some c) r1)
    as [[e|[]] r2'] eqn:Hrun; [done|].
  injection Hdeferred as <-.
  apply registration_inr in Hrun as (d2 & store2 & _ & _ & _ & _ & _ & Happs2).
  apply registration_inr in Hdirect as (d3 & store3 & _ & _ & _ & _ & _ & Happs3).
  eexists _, _. simpl. rewrite Happs2, Happs3, !last_snoc. simpl.
  split; [done|]. split; [done|]. split.
  - apply list_elem_of_filter. split; [apply not_elem_of_nil|done].
  - intros Hk. apply list_elem_of_filter in Hk as [Hk _]. done.
Qed.

End RegistrationClaims.

(** ** Overrides *)

Section OverrideFacts.
Context `{Host}.

(** The copying loop leaves alone every attribute whose keyword is bound to
    [MISSING]. *)
Lemma copy_fields_frame param_name new attr kwargs : forall store,
  (forall v, (attr, v) ∈ kwargs -> is_missing v = true) ->
  ((copy_fields param_name new kwargs store).2 !! param_name) ≫= (.!! attr)
  = (store !! param_name) ≫= (.!! attr).
Proof.
  induction kwargs as [|[key value] rest IH]; intros store Hmiss; [done|].
  simpl. destruct (is_missing value) eqn:Hv.
  - apply IH. intros v Hin. apply Hmiss. by right.
  - assert (key <> attr) as Hne.
    { intros ->. rewrite (Hmiss value) in Hv; [done|by left]. }
    unfold bind at 1, lift. destruct (getattr new key) as [e|v]; [done|].
    unfold bind, assign, modify. rewrite IH by (intros v' Hin; apply Hmiss; by right).
    rewrite lookup_alter_eq. destruct (store !! param_name) as [d|]; [|done].
    simpl. unfold setattr. by rewrite lookup_insert_ne.
Qed.

(** [override_option] on a descriptor that is already in the store: the
    transient descriptor is built and the copying loop runs on the store. *)
Lemma override_option_existing param_name o r store current new :
  compat_options (fn r) = Some store ->
  store !! param_name = Some current ->
  option_ (bound_kwargs o) = inr new ->
  override_option param_name o r
  = let '(res, store') := copy_fields param_name new (bound_kwargs o) store in
    (res, set_fn (set_options store') r).
Proof.
  intros Hstore Hcur Hnew.
  unfold override_option, bind at 1, get. rewrite Hstore.
  unfold bind at 1, ret. unfold bind at 1, on_options at 1. rewrite Hstore.
  rewrite getitem_spec. unfold descriptor_at. rewrite Hcur.
  rewrite insert_id by done.
  unfold bind at 1, lift. rewrite Hnew.
  unfold on_options. simpl. done.
Qed.

(** C2 (the code departs from the claim). [default] is declared with [None],
    not [MISSING], so the copying loop never skips it: [describe] on a
    descriptor that is already in the store writes the description and
    writes the default of the transient descriptor over the one that was
    there. *)
Theorem describe_overwrites_default param_name text r store current new :
  compat_options (fn r) = Some store ->
  store !! param_name = Some current ->
  option_ (bound_kwargs (description_only text)) = inr new ->
  new !! "description" = Some (VStr text) ->
  new !! "default" = Some VNone ->
  (describe param_name text r).1 = inr tt /\
  compat_options (fn (describe param_name text r).2)
  = Some (<[param_name := setattr (setattr current "description" (VStr text))
                            "default" VNone]> store).
Proof.
  intros Hstore Hcur Hnew Hdesc Hdef. unfold describe.
  rewrite (override_option_existing _ _ _ store current new) by done.
  simpl. unfold bind, lift, getattr. rewrite Hdesc, Hdef.
  unfold assign, modify, ret. simpl.
  split; [done|]. f_equal.
  apply map_eq. intros key.
  destruct (decide (key = param_name)) as [->|Hne].
  - by rewrite !lookup_alter_eq, lookup_insert_eq, Hcur.
  - by rewrite !lookup_alter_ne, lookup_insert_ne.
Qed.

End OverrideFacts.

(** ** The statements on the example commands *)

Section Instances.
Import Example Runtime.
Local Open Scope list_scope.



(** The docstring example, run: the schema is named [add], described by the
    docstring and scoped to the guild; [a] and [b] are required, and their
    type is still [MISSING], although the sample resolver maps the
    annotation to [integer]. *)
Lemma add_registered :
  let r' := (Injector_inject (H := Sample.host) the_injector guild "00ff" (Some add)
               add_described).2 in
  exists s,
    application_commands r' = [(s, Some 123456789)] /\
    s_name s = "add" /\ s_description s = "Adds two numbers together" /\
    (s_options s !! "a") ≫= (.!! "required") = Some (VBool true) /\
    (s_options s !! "b") ≫= (.!! "required") = Some (VBool true) /\
    (s_options s !! "a") ≫= (.!! "type") = Some VMissing /\
    (s_options s !! "b") ≫= (.!! "type") = Some VMissing /\
    (Sample.resolve ∅ (VClass "int")).1 !! "type" = Some (VOptionType integer).
Proof. eexists. vm_compute. repeat split. Qed.

(** [inference_overwrites_override] on [greet]: the override asked for a
    required option with default 7. *)
Lemma inference_overwrites_override_witness :
  let r := greet_overridden in
  let r' := (Injector_inject (H := Sample.host) the_injector (inject_with None []) "00ff"
               (Some greet) r).2 in
  (compat_options (fn r) ≫= (.!! "times")) ≫= (.!! "required") = Some (VBool true) /\
  (compat_options (fn r) ≫= (.!! "times")) ≫= (.!! "default") = Some (VInt 7) /\
  exists s final,
    last (application_commands r') = Some (s, None) /\
    s_options s !! "times" = Some final /\
    final !! "required" = Some (VBool false) /\
    (forall dv, Some (VInt 3) = Some dv -> final !! "default" = Some dv).
Proof.
  split; [by vm_compute|]. split; [by vm_compute|].
  apply (inference_overwrites_override (H := Sample.host) the_injector (inject_with None [])
           "00ff" greet greet_overridden _ "times" {| inspect.default := Some (VInt 3) |}).
  - apply (bool_decide_unpack _). vm_compute. exact I.
  - apply list_elem_of_here.
  - apply not_elem_of_nil.
  - reflexivity.
  - vm_compute. reflexivity.
Defined.

(** [describe_overwrites_default] on [add], whose [a] had been given the
    default 5. *)
Lemma describe_overwrites_default_witness :
  let r := add_with_default in
  let store := options_of (fn r) in
  let current := default ∅ (store !! "a") in
  current !! "default" = Some (VInt 5) /\
  (describe (H := Sample.host) "a" "The first number" r).1 = inr tt /\
  compat_options (fn (describe (H := Sample.host) "a" "The first number" r).2)
  = Some (<["a" := setattr (setattr current "description" (VStr "The first number"))
                     "default" VNone]> store).
Proof.
  split; [by vm_compute|].
  apply (describe_overwrites_default (H := Sample.host) "a" "The first number"
           add_with_default (options_of (fn add_with_default))
           (default ∅ (options_of (fn add_with_default) !! "a"))
           (default ∅ (from_option Some None
              (match Sample.make_option (bound_kwargs (description_only "The first number"))
               with inr d => Some d | inl _ => None end)))).
  - vm_compute. reflexivity.
  - vm_compute. reflexivity.
  - vm_compute. reflexivity.
  - vm_compute. reflexivity.
  - vm_compute. reflexivity.
Defined.

(** [send_phase_law] on a fresh interaction: one initial response, then two
    followups. *)
Lemma send_phase_law_witness :
  let self := new_context (Makeshift (from_interaction 7)) in
  let w := {| responded := ∅; calls := [] |} in
  let w1 := (send (H := Sample.platform) self (VStr "2 + 3 = 5") ∅ w).2 in
  let rest : list (val * kwargs) := [(VStr "again", ∅); (VStr "and again", ∅)] in
  (send (H := Sample.platform) self (VStr "2 + 3 = 5") ∅ w).1 = inr VNone /\
  is_done 7 w = false /\ is_done 7 w1 = true /\
  calls w1 = calls w ++ [response_send_message 7 (VStr "2 + 3 = 5") (stripped ∅)] /\
  calls (send_each (H := Sample.platform) self rest w1)
  = calls w1 ++ map (fun m => followup_send 7 m.1 (stripped m.2)) rest.
Proof.
  apply (send_phase_law (H := Sample.platform)
           (new_context (Makeshift (from_interaction 7))) 7 (VStr "2 + 3 = 5") ∅
           [(VStr "again", ∅); (VStr "and again", ∅)]
           {| responded := ∅; calls := [] |}).
  - reflexivity.
  - apply not_elem_of_empty.
  - reflexivity.
Defined.

(** The deferred registration of [add] with [b] excluded maps [b]; the
    direct one does not. *)
Lemma deferred_add_maps_excluded :
  let k := inject_with None ["b"] in
  let deferred :=
    (add_command (H := Sample.host) the_injector "00ff" add
       (Injector_inject (H := Sample.host) the_injector k "" None (fresh add_fn)).2).2 in
  let direct :=
    (Injector_inject (H := Sample.host) the_injector k "00ff" (Some add) (fresh add_fn)).2 in
  (s_callback_kwargs ∘ fst) <$> application_commands deferred = [["a"; "b"]] /\
  (s_callback_kwargs ∘ fst) <$> application_commands direct = [["a"]] /\
  (dom ∘ s_options ∘ fst) <$> application_commands deferred = [{["a"; "b"]}] /\
  (dom ∘ s_options ∘ fst) <$> application_commands direct = [{["a"]}].
Proof. by vm_compute. Qed.

End Instances.

(** * Further properties *)

(** ** [Range.convert] on every range *)

Section RangeMore.
Import Range.














End RangeMore.

(** ** The context adapter, on every context *)

Section AdapterMore.
Import Runtime.
Context `{Platform}.
Local Open Scope list_scope.

Lemma plain_run c w :
  plain c w = (if accepts c then inr tt else inl HTTPException, log c w).
Proof. unfold plain, bind, modify, platform. simpl. by destruct (accepts c). Qed.

Lemma opening_run i c w :
  opening i c w
  = if is_done i w then (inl InteractionResponded, log c w)
    else if accepts c then (inr tt, mark_responded i (log c w))
    else (inl HTTPException, log c w).
Proof.
  unfold opening, bind, modify, get, platform. simpl.
  change (is_done i (log c w)) with (is_done i w).
  destruct (is_done i w); [done|]. by destruct (accepts c).
Qed.

Lemma send_run self content kw w :
  send self content kw w
  = match interaction self with
    | Some i =>
        if is_done i w then
          (if accepts (followup_send i content (stripped kw)) then inr VNone
           else inl HTTPException,
           log (followup_send i content (stripped kw)) w)
        else if accepts (response_send_message i content (stripped kw)) then
          (inr VNone,
           mark_responded i (log (response_send_message i content (stripped kw)) w))
        else (inl HTTPException, log (response_send_message i content (stripped kw)) w)
    | None =>
        (if accepts (Context_send content (delete "ephemeral" kw))
         then inr (VClass "discord.Message") else inl HTTPException,
         log (Context_send content (delete "ephemeral" kw)) w)
    end.
Proof.
  unfold send. destruct (interaction self) as [i|].
  - unfold bind at 1. unfold bind at 1, get. unfold await.
    destruct (is_done i w) eqn:Hd.
    + rewrite plain_run. by destruct (accepts _).
    + rewrite opening_run, Hd. by destruct (accepts _).
  - unfold bind, await. rewrite plain_run. by destruct (accepts _).
Qed.

Lemma edit_run (self : MakeshiftMessage) kw w :
  edit self kw w
  = if is_done (m_interaction self) w then
      plain (edit_original_message (m_interaction self) kw) w
    else opening (m_interaction self)
           (response_edit_message (m_interaction self) kw) w.
Proof. unfold edit, bind, get, await. by destruct (is_done _ w). Qed.

Lemma one_step_log c w : one_step w (log c w).
Proof. split; [right; by exists c|done]. Qed.

Lemma one_step_mark i c w : one_step w (mark_responded i (log c w)).
Proof. split; [right; by exists c|simpl; set_solver]. Qed.

Lemma one_step_refl w : one_step w w.
Proof. split; [by left|done]. Qed.

Lemma send_one_step self content kw w : one_step w (send self content kw w).2.
Proof.
  rewrite send_run. destruct (interaction self) as [i|]; [|apply one_step_log].
  destruct (is_done i w); [apply one_step_log|].
  destruct (accepts _); [apply one_step_mark|apply one_step_log].
Qed.

(** X4. Whatever the context, the state of the interaction and the answers
    of the platform, [send], [reply], [defer] and [MakeshiftMessage.edit]
    each run at most one host operation and never take a response back. *)
Theorem adapter_one_step self (m : MakeshiftMessage) depth content kw loading ephemeral w :
  one_step w (send self content kw w).2 /\
  one_step w (reply depth self content kw w).2 /\
  one_step w (defer self loading ephemeral w).2 /\
  one_step w (edit m kw w).2.
Proof.
  split; [apply send_one_step|]. split; [|split].
  - induction depth as [|d IH]; simpl.
    + destruct (is_interaction self); [apply send_one_step|apply one_step_refl].
    + destruct (is_interaction self); [apply send_one_step|apply IH].
  - unfold defer. destruct (interaction self); apply one_step_refl.
  - rewrite edit_run. destruct (is_done _ w).
    + rewrite plain_run. apply one_step_log.
    + rewrite opening_run. destruct (is_done _ w); [apply one_step_log|].
      destruct (accepts _); [apply one_step_mark|apply one_step_log].
Qed.

Lemma stripped_lookup (kw : kwargs) (key : string) :
  stripped kw !! key
  = if bool_decide (key ∈ ["reference"; "mention_after"; "delete_after"; "nonce"])
    then None else kw !! key.
Proof.
  unfold stripped, pop_all. simpl. rewrite !lookup_delete.
  case_bool_decide as Hin.
  - rewrite !elem_of_cons, elem_of_nil in Hin.
    destruct Hin as [->|[->|[->|[->|[]]]]]; by repeat case_decide.
  - rewrite !elem_of_cons, elem_of_nil in Hin.
    repeat case_decide; subst; naive_solver.
Qed.

(** X5. On an interaction backed context [send] hands the host the content
    and the keywords without [reference], [mention_after], [delete_after]
    and [nonce]; every other keyword ([ephemeral], [mention_author], ...)
    goes through as given.  The operation is the followup when the response
    is done, the initial response otherwise. *)
Theorem send_interaction_keywords self i content kw w :
  interaction self = Some i ->
  calls (send self content kw w).2
  = calls w ++ [if is_done i w then followup_send i content (stripped kw)
                else response_send_message i content (stripped kw)] /\
  (forall key,
     stripped kw !! key
     = if bool_decide (key ∈ ["reference"; "mention_after"; "delete_after"; "nonce"])
       then None else kw !! key).
Proof.
  intros Hi. split; [|apply stripped_lookup].
  rewrite send_run, Hi. destruct (is_done i w); [done|]. by destruct (accepts _).
Qed.

(** X6. On a context without interaction [send] runs the base class send
    once, with the keywords minus [ephemeral], whatever the state of the
    host; it returns the message when the platform takes the call and raises
    [HTTPException] otherwise, and no response state changes. *)
Theorem send_legacy self content kw w :
  interaction self = None ->
  let c := Context_send content (delete "ephemeral" kw) in
  send self content kw w
  = (if accepts c then inr (VClass "discord.Message") else inl HTTPException,
     {| responded := responded w; calls := calls w ++ [c] |}) /\
  (forall key, delete "ephemeral" kw !! key
               = if decide (key = "ephemeral") then None else kw !! key).
Proof.
  intros Hi c. split.
  - by rewrite send_run, Hi.
  - intros key. rewrite lookup_delete. by repeat case_decide.
Qed.

(** X7. When the platform refuses the initial response, [send] raises
    [HTTPException] and the response is still not done: the next [send] on
    the context runs the initial response again, not the followup. *)
Theorem send_refused_retries self i content kw content' kw' w :
  interaction self = Some i ->
  i ∉ responded w ->
  accepts (response_send_message i content (stripped kw)) = false ->
  (send self content kw w).1 = inl HTTPException /\
  is_done i (send self content kw w).2 = false /\
  calls (send self content' kw' (send self content kw w).2).2
  = calls w ++ [response_send_message i content (stripped kw);
                response_send_message i content' (stripped kw')].
Proof.
  intros Hi Hw Hno.
  assert (is_done i w = false) as Hd by by apply bool_decide_eq_false_2.
  rewrite (send_run self content kw w), Hi, Hd, Hno. simpl.
  split; [done|]. split; [done|].
  rewrite send_run, Hi.
  change (is_done i (log _ w)) with (is_done i w). rewrite Hd.
  destruct (accepts (response_send_message i content' _));
    unfold mark_responded, log; simpl; by rewrite <- app_assoc.
Qed.


(** X9. A context is interaction backed exactly when its message is a
    synthetic one, its interaction is then the one the message was built
    from, and [reply] on it is [send], at every recursion depth. *)
Theorem reply_is_send depth (i : Z) content kw :
  let self := new_context (Makeshift (from_interaction i)) in
  interaction self = Some i /\
  (forall m, is_interaction (new_context m) = true <-> exists mm, m = Makeshift mm) /\
  reply depth self content kw = send self content kw.
Proof.
  intros self. split; [done|]. split.
  - intros [|mm]; simpl; split; try done; [by intros [? ?]|by eexists].
  - by destruct depth.
Qed.

End AdapterMore.

(** ** The entry point callback *)

Section DispatchFacts.
Import Runtime Dispatch.
Context `{Bot}.
Local Open Scope list_scope.

Implicit Types (r : run) (kw : list (string * val)) (cog : option string).

Lemma callback_run c excluded cog attrs i r :
  callback c excluded cog attrs i r
  = match collect attrs (filter (fun key => key ∉ excluded) (clean_params c).*1) with
    | inl e => (inl e, r)
    | inr kw =>
        let message := Makeshift (synthesize c i) in
        match super_get_context message InteractionAwareContext_class (host r) with
        | (inl e, w) => (inl e, {| host := w; steps := steps r |})
        | (inr (Some true), w) =>
            dispatched_run (new_context message) cog kw {| host := w; steps := steps r |}
        | (inr _, w) => (inr tt, {| host := w; steps := steps r |})
        end
    end.
Proof.
  unfold callback, bind at 1, lift.
  destruct (collect attrs _) as [e|kw]; [done|].
  unfold bind at 1, get_context, bind at 1, ret, on_host. simpl.
  destruct (super_get_context _ _ (host r)) as [[e|[[]|]] w]; try done.
  unfold dispatched_run, handled, bind, emit, modify, attempt, on_host, raise. simpl.
  destruct (can_run _ w) as [[e|[]] w1]; simpl.
  - by destruct (is_command_error e).
  - destruct (func cog _ kw w1) as [[e|[]] w2]; simpl; [|done].
    by destruct (is_command_error e).
  - done.
Qed.

Lemma collect_inr attrs keys kw :
  collect attrs keys = inr kw ->
  kw.*1 = keys /\ Forall (fun e => attrs !! e.1 = Some e.2) kw.
Proof.
  revert kw. induction keys as [|k rest IH]; intros kw; simpl.
  - intros [= <-]. by split.
  - unfold getattr. destruct (attrs !! k) as [v|] eqn:Hk; [|done].
    destruct (collect attrs rest) as [e|l]; [done|]. intros [= <-].
    destruct (IH l eq_refl) as [Hkeys Hall]. split; [by rewrite fmap_cons, Hkeys|].
    by constructor.
Qed.

Lemma collect_inl attrs keys e :
  collect attrs keys = inl e ->
  exists k, k ∈ keys /\ attrs !! k = None /\ e = AttributeError k.
Proof.
  induction keys as [|k rest IH]; simpl; [done|].
  unfold getattr. destruct (attrs !! k) as [v|] eqn:Hk.
  - destruct (collect attrs rest) as [e'|l]; [|done]. intros [= <-].
    destruct (IH eq_refl) as (k' & Hin & Hnone & ->).
    exists k'. split; [by right|done].
  - intros [= <-]. exists k. split; [by left|done].
Qed.

Lemma collect_missing attrs keys k :
  k ∈ keys -> attrs !! k = None -> exists e, collect attrs keys = inl e.
Proof.
  intros Hin Hk. destruct (collect attrs keys) as [e|kw] eqn:Hc; [by eexists|].
  apply collect_inr in Hc as [<- Hall].
  apply list_elem_of_fmap in Hin as ([k' v] & -> & Hin).
  rewrite Forall_forall in Hall. specialize (Hall _ Hin). simpl in *. congruence.
Qed.

Lemma handled_shape ctx e r :
  exists new,
    steps (handled ctx e r).2 = steps r ++ new /\
    ((new = [error_dispatched e] /\ is_command_error e = true) \/
     (new = [] /\ is_command_error e = false /\ (handled ctx e r).1 = inl e)).
Proof.
  unfold handled. destruct (is_command_error e) eqn:He.
  - destruct (dispatch_error ctx e (host r)) as [a w]. eexists. split; [done|]. by left.
  - exists []. split; [by rewrite app_nil_r|]. by right.
Qed.

(** X10. Whatever the bot, the checks, the handler and the error hook do,
    one run of the entry point adds one of six step sequences: nothing; or
    the [command] event, then at most one call of the handler, then either
    [command_completion] (only when the callback returns normally) or one
    call of the error hook (only with an exception of the [CommandError]
    family) or nothing (only when an exception outside that family leaves
    the callback). *)
Theorem callback_steps c excluded cog attrs i r :
  let out := callback c excluded cog attrs i r in
  exists new kw,
    steps out.2 = steps r ++ new /\
    callback_shape cog kw out.1 new /\
    (new <> [] ->
     collect attrs (filter (fun key => key ∉ excluded) (clean_params c).*1) = inr kw).
Proof.
  intros out. subst out. rewrite callback_run.
  destruct (collect attrs _) as [e|kw].
  { exists [], []. rewrite app_nil_r. repeat split; [constructor|done]. }
  simpl. destruct (super_get_context _ _ (host r)) as [[e|found] w].
  { exists [], kw. rewrite app_nil_r. repeat split; constructor. }
  assert (found = Some true \/ found <> Some true) as [->|Hno].
  { destruct found as [[]|]; auto. }
  2:{ exists [], kw. rewrite app_nil_r.
      destruct found as [[]|]; try done; repeat split; constructor. }
  unfold dispatched_run. simpl.
  destruct (can_run _ w) as [[e|[]] w1].
  - match goal with |- context [handled ?c ?x ?s] =>
      destruct (handled_shape c x s) as (new & Hs & [[-> He]|(-> & He & Hres)]) end;
      simpl in Hs; rewrite Hs.
    + exists [dispatched "command"; error_dispatched e], kw.
      rewrite <- app_assoc. repeat split. by constructor.
    + exists [dispatched "command"], kw. rewrite app_nil_r, Hres.
      repeat split. by constructor.
  - destruct (func cog _ kw w1) as [[e|[]] w2].
    + match goal with |- context [handled ?c ?x ?s] =>
        destruct (handled_shape c x s) as (new & Hs & [[-> He]|(-> & He & Hres)]) end;
        simpl in Hs; rewrite Hs.
      * exists [dispatched "command"; invoked cog kw; error_dispatched e], kw.
        rewrite <- !app_assoc. repeat split. by constructor.
      * exists [dispatched "command"; invoked cog kw], kw.
        rewrite app_nil_r, Hres, <- app_assoc. repeat split. by constructor.
    + exists [dispatched "command"; invoked cog kw; dispatched "command_completion"], kw.
      simpl. rewrite <- !app_assoc. repeat split. constructor.
  - match goal with |- context [handled ?c ?x ?s] =>
      destruct (handled_shape c x s) as (new & Hs & [[-> He]|(-> & He & Hres)]) end;
      simpl in Hs; rewrite Hs; [|done].
    eexists [dispatched "command"; error_dispatched _], kw.
    rewrite <- app_assoc. repeat split. by constructor.
Qed.

(** X11. When the base class resolves no context, or a context without a
    command, the callback returns normally: no event is dispatched, the
    checks, the handler and the error hook are not run. *)
Theorem callback_unresolved c excluded cog attrs i r kw found w :
  collect attrs (filter (fun key => key ∉ excluded) (clean_params c).*1) = inr kw ->
  super_get_context (Makeshift (synthesize c i)) InteractionAwareContext_class (host r)
  = (inr found, w) ->
  found <> Some true ->
  callback c excluded cog attrs i r = (inr tt, {| host := w; steps := steps r |}).
Proof.
  intros Hkw Hctx Hno. rewrite callback_run, Hkw. simpl. rewrite Hctx.
  by destruct found as [[]|].
Qed.

(** X12. When [bot.can_run] answers no, the handler is not called: the
    error hook of the command receives [CheckFailure], its outcome is the
    outcome of the callback, and [command_completion] is not dispatched. *)
Theorem callback_check_failed c excluded cog attrs i r kw w w' :
  let message := Makeshift (synthesize c i) in
  let failure := CheckFailure "The global check once functions failed." in
  collect attrs (filter (fun key => key ∉ excluded) (clean_params c).*1) = inr kw ->
  super_get_context message InteractionAwareContext_class (host r) = (inr (Some true), w) ->
  can_run (new_context message) w = (inr false, w') ->
  callback c excluded cog attrs i r
  = ((dispatch_error (new_context message) failure w').1,
     {| host := (dispatch_error (new_context message) failure w').2;
        steps := steps r ++ [dispatched "command"; error_dispatched failure] |}).
Proof.
  intros message failure Hkw Hctx Hrun. rewrite callback_run, Hkw. simpl.
  fold message. rewrite Hctx. unfold dispatched_run, handled. simpl. rewrite Hrun.
  simpl. fold failure. destruct (dispatch_error _ failure w') as [a w2].
  by rewrite <- app_assoc.
Qed.

(** X13. When the checks pass and the handler returns, the handler has been
    called once, between [command] and [command_completion], with the cog it
    is bound to and with exactly the parameters that are not excluded, each
    bound to the attribute of that name, in the order of the parameters. *)
Theorem callback_completed c excluded cog attrs i r kw w w' w'' :
  let message := Makeshift (synthesize c i) in
  collect attrs (filter (fun key => key ∉ excluded) (clean_params c).*1) = inr kw ->
  super_get_context message InteractionAwareContext_class (host r) = (inr (Some true), w) ->
  can_run (new_context message) w = (inr true, w') ->
  func cog (new_context message) kw w' = (inr tt, w'') ->
  callback c excluded cog attrs i r
  = (inr tt,
     {| host := w'';
        steps := steps r ++ [dispatched "command"; invoked cog kw;
                             dispatched "command_completion"] |}) /\
  kw.*1 = filter (fun key => key ∉ excluded) (clean_params c).*1 /\
  Forall (fun e => (e.1 ∉ excluded) /\ attrs !! e.1 = Some e.2) kw.
Proof.
  intros message Hkw Hctx Hrun Hfunc. split.
  - rewrite callback_run, Hkw. simpl. fold message. rewrite Hctx.
    unfold dispatched_run. simpl. rewrite Hrun, Hfunc. simpl.
    by rewrite <- !app_assoc.
  - apply collect_inr in Hkw as [Hkeys Hall]. split; [done|].
    rewrite Forall_forall in *. intros e He. split; [|by apply Hall].
    assert (e.1 ∈ kw.*1) as Hin by (apply list_elem_of_fmap; by exists e).
    rewrite Hkeys in Hin. by apply list_elem_of_filter in Hin as [? _].
Qed.

(** X14. When the handler raises, [command_completion] is not dispatched.
    An exception of the [CommandError] family goes to the error hook of the
    command, whose outcome is the outcome of the callback; any other
    exception leaves the callback as it is, and the error hook is not
    run. *)
Theorem callback_handler_raised c excluded cog attrs i r kw w w' w'' e :
  let message := Makeshift (synthesize c i) in
  let ctx := new_context message in
  collect attrs (filter (fun key => key ∉ excluded) (clean_params c).*1) = inr kw ->
  super_get_context message InteractionAwareContext_class (host r) = (inr (Some true), w) ->
  can_run ctx w = (inr true, w') ->
  func cog ctx kw w' = (inl e, w'') ->
  callback c excluded cog attrs i r
  = if is_command_error e then
      ((dispatch_error ctx e w'').1,
       {| host := (dispatch_error ctx e w'').2;
          steps := steps r ++ [dispatched "command"; invoked cog kw;
                               error_dispatched e] |})
    else
      (inl e, {| host := w'';
                 steps := steps r ++ [dispatched "command"; invoked cog kw] |}).
Proof.
  intros message ctx Hkw Hctx Hrun Hfunc. rewrite callback_run, Hkw. simpl.
  fold message. rewrite Hctx. unfold dispatched_run, handled. simpl. fold ctx.
  rewrite Hrun, Hfunc. simpl. destruct (is_command_error e).
  - destruct (dispatch_error ctx e w'') as [a w3]. by rewrite <- !app_assoc.
  - by rewrite <- !app_assoc.
Qed.

(** X15. When the command object lacks the attribute of a parameter that is
    not excluded, the callback raises [AttributeError] for such a parameter
    before anything else: the state is as it was, no context is resolved. *)
Theorem callback_missing_option c excluded cog attrs i r key :
  key ∈ (clean_params c).*1 ->
  key ∉ excluded ->
  attrs !! key = None ->
  exists k,
    k ∈ (clean_params c).*1 /\ (k ∉ excluded) /\ attrs !! k = None /\
    callback c excluded cog attrs i r = (inl (AttributeError k), r).
Proof.
  intros Hin Hex Hnone.
  assert (key ∈ filter (fun key => key ∉ excluded) (clean_params c).*1) as Hkey.
  { by apply list_elem_of_filter. }
  destruct (collect_missing attrs _ key Hkey Hnone) as [e He].
  destruct (collect_inl _ _ _ He) as (k & Hk & Hknone & ->).
  apply list_elem_of_filter in Hk as [Hkex Hkin].
  exists k. repeat split; try done. by rewrite callback_run, He.
Qed.

(** The content of the synthetic message is the prefix the bot reports
    for a synthetic message followed by the qualified name of the command;
    that prefix is a slash, found without asking the base class, which is
    asked for every other message. *)
Remark synthetic_prefix c i w :
  get_prefix (Makeshift (synthesize c i)) w = (inr (inl "/"), w) /\
  m_content (synthesize c i) = ("/" ++ qualified_name c)%string /\
  m_interaction (synthesize c i) = i /\
  get_prefix Message w = super_get_prefix Message w.
Proof. done. Qed.

End DispatchFacts.

(** ** Registration, on every command *)

Section RegistrationMore.
Context `{Host}.
Local Open Scope list_scope.
Implicit Types (store : gmap string obj) (key : string) (p : parameter).

Lemma infer_option_run excluded annotations key p store :
  key ∉ excluded ->
  infer_option excluded annotations key p store
  = match descriptor_at store key with
    | inr d =>
        (match (inferred annotations key p d).2 with Some e => inl e | None => inr tt end,
         <[key := (inferred annotations key p d).1]> store)
    | inl e => (inl e, store)
    end.
Proof.
  intros Hex. destruct (resolved annotations key p) eqn:Hres.
  2:{ rewrite infer_option_marked by done. unfold inferred. by rewrite Hres. }
  unfold inferred. rewrite Hres. unfold resolved in Hres.
  unfold infer_option. rewrite bool_decide_eq_false_2 by done.
  unfold bind at 1. rewrite getitem_spec.
  destruct (descriptor_at store key) as [e|d]; [done|].
  unfold marked. destruct (inspect.default p) as [dv|]; [|done].
  destruct (annotations !! key) as [a|]; [|done]. rewrite Hres.
  unfold bind. rewrite !assign_insert. rewrite lookup_insert_eq.
  destruct (resolve_option_annotation _ a) as [d' [[]|]]; simpl;
    by rewrite insert_insert_eq.
Qed.

Lemma infer_option_excluded excluded annotations key p store :
  key ∈ excluded -> infer_option excluded annotations key p store = (inr tt, store).
Proof. intros Hex. unfold infer_option. by rewrite bool_decide_eq_true_2. Qed.

(** The loop leaves alone the descriptors of excluded parameters and of
    names that are not parameters, whether it goes through or raises. *)
Lemma infer_options_untouched excluded annotations params : forall store key',
  key' ∈ excluded \/ key' ∉ params.*1 ->
  (infer_options excluded annotations params store).2 !! key' = store !! key'.
Proof.
  induction params as [|[key p] rest IH]; intros store key' Hk; [done|].
  simpl. unfold bind.
  assert ((infer_option excluded annotations key p store).2 !! key' = store !! key')
    as Hstep.
  { destruct (decide (key' = key)) as [->|Hne]; [|by apply infer_option_other].
    destruct Hk as [Hex|Hnot]; [by rewrite infer_option_excluded|].
    destruct Hnot. simpl. by left. }
  destruct (infer_option excluded annotations key p store) as [[e|[]] store1];
    simpl in *; [done|].
  rewrite IH; [done|]. destruct Hk as [?|Hnot]; [by left|right].
  intros Hin. apply Hnot. simpl. by right.
Qed.

(** After a loop that went through, the store holds a descriptor for the
    names it held before and for the parameters that are not excluded. *)
Lemma infer_options_domain excluded annotations params : forall store store' key',
  infer_options excluded annotations params store = (inr tt, store') ->
  is_Some (store' !! key') <->
  is_Some (store !! key') \/ (key' ∈ params.*1 /\ key' ∉ excluded).
Proof.
  induction params as [|[key p] rest IH]; intros store store' key' Hrun; simpl in *.
  { injection Hrun as <-. rewrite elem_of_nil. tauto. }
  unfold bind in Hrun.
  destruct (infer_option excluded annotations key p store) as [[e|[]] store1] eqn:Hstep;
    [done|].
  rewrite (IH store1 store' key' Hrun), elem_of_cons.
  assert (is_Some (store1 !! key') <->
          is_Some (store !! key') \/ (key' = key /\ key ∉ excluded)) as ->.
  { destruct (decide (key ∈ excluded)) as [Hex|Hex].
    - rewrite infer_option_excluded in Hstep by done. injection Hstep as <-. tauto.
    - rewrite infer_option_run in Hstep by done.
      destruct (descriptor_at store key) as [e|d]; [done|].
      injection Hstep as _ <-. destruct (decide (key' = key)) as [->|Hne].
      + rewrite lookup_insert_eq. split; [by right|by eexists].
      + rewrite lookup_insert_ne by done. tauto. }
  split.
  - intros [[?|[-> ?]]|[? ?]]; auto.
  - intros [?|[[->|?] ?]]; auto.
Qed.

(** After a loop that went through, the descriptor of a parameter that is
    not excluded is what its turn made of the descriptor it found. *)
Lemma infer_options_inferred excluded annotations params : forall store store' key p,
  NoDup params.*1 ->
  (key, p) ∈ params ->
  key ∉ excluded ->
  infer_options excluded annotations params store = (inr tt, store') ->
  exists d, descriptor_at store key = inr d /\
            inferred annotations key p d = ((inferred annotations key p d).1, None) /\
            store' !! key = Some (inferred annotations key p d).1.
Proof.
  induction params as [|[key0 p0] rest IH]; intros store store' key p Hnd Hin Hex Hrun.
  { by apply elem_of_nil in Hin. }
  simpl in *. apply NoDup_cons in Hnd as [Hfresh Hnd]. unfold bind in Hrun.
  apply elem_of_cons in Hin as [[= -> ->]|Hin].
  - rewrite infer_option_run in Hrun by done.
    destruct (descriptor_at store key0) as [e|d]; [done|]. exists d.
    destruct (inferred annotations key0 p0 d) as [d' [e|]] eqn:Hinf; [done|].
    simpl in *. repeat split; try done.
    pose proof (infer_options_untouched excluded annotations rest
                  (<[key0 := d']> store) key0 (or_intror Hfresh)) as Hkeep.
    rewrite Hrun in Hkeep. simpl in Hkeep. by rewrite Hkeep, lookup_insert_eq.
  - assert (key <> key0) as Hne.
    { intros ->. apply Hfresh. apply list_elem_of_fmap. by exists (key0, p). }
    pose proof (infer_option_other excluded annotations key0 p0 store key Hne) as Hstep.
    destruct (infer_option excluded annotations key0 p0 store) as [[e|[]] store1];
      simpl in *; [done|].
    destruct (IH store1 store' key p Hnd Hin Hex Hrun) as (d & Hd & Hstore).
    exists d. split; [|done]. unfold descriptor_at in *. by rewrite <- Hstep.
Qed.

(** X16. However [Injector.inject] on a command ends, the legacy commands,
    the command's injector and the pending metadata of the callback are as
    before.  When it raises, no application command has been added and the
    callback carries no new schema; when it returns, exactly one schema has
    been added, for the guild given, and the callback carries that schema:
    its class name is the random one, its name and parent are the resolved
    ones, its tree is the one given or else the injector's. *)
Theorem registration_effects self k rand c r :
  let out := Injector_inject self k rand (Some c) r in
  legacy_commands out.2 = legacy_commands r /\
  compat_injector out.2 = compat_injector r /\
  compat_inject (fn out.2) = compat_inject (fn r) /\
  compat_injection_kwargs (fn out.2) = compat_injection_kwargs (fn r) /\
  match out.1 with
  | inl _ =>
      application_commands out.2 = application_commands r /\
      compat_application_command (fn out.2) = compat_application_command (fn r)
  | inr _ =>
      exists s,
        application_commands out.2 = application_commands r ++ [(s, guild_id k)] /\
        compat_application_command (fn out.2) = Some s /\
        compat_options (fn out.2) = Some (s_options s) /\
        s_ident s = rand /\ s_name s = default (cmd_name c) (name k) /\
        s_parent s = resolve_parent k c /\ s_guild_id s = guild_id k /\
        s_tree s = default (inj_tree self) (tree k)
  end.
Proof.
  intros out. subst out. rewrite Injector_inject_command. unfold registration.
  destruct (resolve_description k c) as [d|]; [|done].
  destruct (String.eqb d ""); [done|].
  destruct (infer_options _ _ _ _) as [[e|[]] store]; [done|].
  simpl. repeat split. eexists. repeat split.
Qed.

(** X17. A parameter named in [excluded_options] is not passed to the
    handler by the entry point, and the registration leaves its descriptor
    as it was: one that an override had made stays among the options handed
    over, and none is made otherwise. *)
Theorem registration_excluded self k rand c r r' key :
  key ∈ excluded_options k ->
  Injector_inject self k rand (Some c) r = (inr tt, r') ->
  exists s,
    last (application_commands r') = Some (s, guild_id k) /\
    (key ∉ s_callback_kwargs s) /\
    s_options s !! key = options_of (fn r) !! key.
Proof.
  intros Hex Hrun.
  apply registration_inr in Hrun as (d & store & _ & _ & Hloop & Hopts & _ & Happs).
  eexists. split; [by rewrite Happs, last_snoc|]. split.
  - simpl. intros Hin. by apply list_elem_of_filter in Hin as [? _].
  - rewrite Hopts.
    pose proof (infer_options_untouched (excluded_options k) (fn_annotations (fn r))
                  (clean_params c) (options_of (fn r)) key (or_introl Hex)) as Hkeep.
    by rewrite Hloop in Hkeep.
Qed.

(** X18. The options handed over are the descriptors the callback held
    before the registration together with one descriptor for every
    parameter that is not excluded, and the entry point maps exactly those
    parameters. *)
Theorem registration_options self k rand c r r' :
  Injector_inject self k rand (Some c) r = (inr tt, r') ->
  exists s,
    last (application_commands r') = Some (s, guild_id k) /\
    (forall key,
       is_Some (s_options s !! key) <->
       is_Some (options_of (fn r) !! key) \/
       (key ∈ (clean_params c).*1 /\ key ∉ excluded_options k)) /\
    (forall key,
       key ∈ s_callback_kwargs s <->
       key ∈ (clean_params c).*1 /\ key ∉ excluded_options k).
Proof.
  intros Hrun.
  apply registration_inr in Hrun as (d & store & _ & _ & Hloop & Hopts & _ & Happs).
  eexists. split; [by rewrite Happs, last_snoc|]. split.
  - intros key. rewrite Hopts. by apply (infer_options_domain _ _ _ _ _ _ Hloop).
  - intros key. simpl. rewrite list_elem_of_filter. tauto.
Qed.

(** X19. For a parameter with a default and a truthy annotation, the
    resolver is handed the descriptor with [required = False] and the
    default already written on it; the schema carries the descriptor as the
    resolver left it, with [type] set to [string] when the resolver raised
    [TypeError]. *)
Theorem registration_resolved self k rand c r r' key p dv annotation :
  NoDup (clean_params c).*1 ->
  (key, p) ∈ clean_params c ->
  key ∉ excluded_options k ->
  inspect.default p = Some dv ->
  fn_annotations (fn r) !! key = Some annotation ->
  truthy annotation = true ->
  Injector_inject self k rand (Some c) r = (inr tt, r') ->
  exists s d,
    last (application_commands r') = Some (s, guild_id k) /\
    descriptor_at (options_of (fn r)) key = inr d /\
    let given := setattr (setattr d "required" (VBool false)) "default" dv in
    match resolve_option_annotation given annotation with
    | (d', None) => s_options s !! key = Some d'
    | (d', Some (TypeError _)) =>
        s_options s !! key = Some (setattr d' "type" (VOptionType string_t))
    | (_, Some _) => False
    end.
Proof.
  intros Hnd Hin Hex Hdv Hann Htruthy Hrun.
  apply registration_inr in Hrun as (desc & store & _ & _ & Hloop & Hopts & _ & Happs).
  destruct (infer_options_inferred _ _ _ _ _ _ _ Hnd Hin Hex Hloop)
    as (d & Hd & Hnone & Hstore).
  eexists _, d. split; [by rewrite Happs, last_snoc|]. split; [done|].
  rewrite Hopts. unfold inferred, resolved, marked in *.
  rewrite Hdv, Hann, Htruthy in *. simpl.
  destruct (resolve_option_annotation _ annotation) as [d' [[]|]]; simpl in *;
    try done; by inversion Hnone.
Qed.

End RegistrationMore.

(** ** Overrides, on every callback *)

Section OverrideMore.
Context `{Host}.
Local Open Scope list_scope.

(** [override_option], written out: the placeholder descriptor is stored
    before the transient descriptor is built. *)
Lemma override_option_run param_name o r :
  override_option param_name o r
  = match descriptor_at (options_of (fn r)) param_name with
    | inl e => (inl e, set_fn (set_options (options_of (fn r))) r)
    | inr d =>
        let store := <[param_name := d]> (options_of (fn r)) in
        match option_ (bound_kwargs o) with
        | inl e => (inl e, set_fn (set_options store) r)
        | inr new =>
            let '(res, store') := copy_fields param_name new (bound_kwargs o) store in
            (res, set_fn (set_options store') r)
        end
    end.
Proof.
  unfold override_option, bind at 1, get. generalize (bound_kwargs o) as kws. intros kws.
  assert ((if compat_options (fn r) is Some _ then ret tt
           else modify (set_fn (set_options ∅))) r
          = (inr tt, set_fn (set_options (options_of (fn r))) r)) as Hinit.
  { unfold options_of. destruct r as [[n ann [store|] pi pk pa] inj apps legacy]; done. }
  unfold bind at 1. rewrite Hinit.
  unfold bind at 1, on_options at 1. simpl. rewrite getitem_spec.
  destruct (descriptor_at (options_of (fn r)) param_name) as [e|d]; [done|].
  unfold bind at 1, lift. destruct (option_ kws) as [e|new]; [done|].
  unfold on_options. simpl. by destruct (copy_fields _ _ _ _).
Qed.

Lemma copy_fields_other param_name new kwargs key' : forall store,
  key' <> param_name ->
  (copy_fields param_name new kwargs store).2 !! key' = store !! key'.
Proof.
  induction kwargs as [|[key value] rest IH]; intros store Hne; [done|].
  simpl. destruct (is_missing value); [by apply IH|].
  unfold bind at 1, lift. destruct (getattr new key) as [e|v]; [done|].
  unfold bind, assign, modify. rewrite IH by done. by rewrite lookup_alter_ne.
Qed.

Lemma copy_fields_takes param_name new kwargs : forall store store',
  NoDup kwargs.*1 ->
  is_Some (store !! param_name) ->
  copy_fields param_name new kwargs store = (inr tt, store') ->
  forall key v, (key, v) ∈ kwargs -> is_missing v = false ->
    exists nv, new !! key = Some nv /\
               (store' !! param_name) ≫= (.!! key) = Some nv.
Proof.
  induction kwargs as [|[key0 v0] rest IH]; intros store store' Hnd Hsome Hrun key v Hin Hv.
  { by apply elem_of_nil in Hin. }
  simpl in *. apply NoDup_cons in Hnd as [Hfresh Hnd].
  destruct (is_missing v0) eqn:Hv0.
  - apply elem_of_cons in Hin as [[= -> ->]|Hin]; [congruence|]. by eapply IH.
  - unfold bind at 1, lift, getattr in Hrun.
    destruct (new !! key0) as [nv|] eqn:Hnew; [|done].
    unfold bind, assign, modify in Hrun. simpl in Hrun.
    set (store1 := alter (fun d => setattr d key0 nv) param_name store) in *.
    assert (is_Some (store1 !! param_name)) as Hsome1.
    { unfold store1. rewrite lookup_alter_eq. destruct Hsome as [d ->]. by eexists. }
    apply elem_of_cons in Hin as [[= -> ->]|Hin]; [|by eapply (IH store1)].
    exists nv. split; [done|].
    assert (forall v', (key0, v') ∈ rest -> is_missing v' = true) as Hvac.
    { intros v' Hin'. destruct Hfresh. apply list_elem_of_fmap. by exists (key0, v'). }
    pose proof (copy_fields_frame param_name new key0 rest store1 Hvac) as Hframe.
    destruct (copy_fields param_name new rest store1) as [[e|[]] store2]; [done|].
    injection Hrun as <-. simpl in Hframe. rewrite Hframe.
    unfold store1. rewrite lookup_alter_eq. destruct Hsome as [d ->]. simpl.
    unfold setattr. by rewrite lookup_insert_eq.
Qed.

Lemma bound_kwargs_NoDup o : NoDup (bound_kwargs o).*1.
Proof. apply (bool_decide_unpack _). by vm_compute. Qed.

(** X20. However [override_option] ends, the descriptors of the other
    parameters are as before, and on the descriptor of the parameter named
    every attribute whose keyword is bound to [MISSING] keeps the value it
    had (the value of the placeholder, when the descriptor is new). *)
Theorem override_option_frame param_name o r :
  let after := options_of (fn (override_option param_name o r).2) in
  (forall key, key <> param_name -> after !! key = options_of (fn r) !! key) /\
  (forall d attr,
     descriptor_at (options_of (fn r)) param_name = inr d ->
     (forall v, (attr, v) ∈ bound_kwargs o -> is_missing v = true) ->
     (after !! param_name) ≫= (.!! attr) = d !! attr).
Proof.
  intros after. subst after. rewrite override_option_run.
  generalize (bound_kwargs o) as kws. intros kws.
  destruct (descriptor_at (options_of (fn r)) param_name) as [e|d] eqn:Hd.
  { by split. }
  cbv zeta. destruct (option_ kws) as [e|new].
  { split.
    - intros key Hne. cbn [snd]. unfold options_of at 1. simpl.
      by rewrite lookup_insert_ne.
    - intros d' attr [= <-] _. cbn [snd]. unfold options_of at 1. simpl.
      by rewrite lookup_insert_eq. }
  split.
  - intros key Hne.
    pose proof (copy_fields_other param_name new kws key
                  (<[param_name := d]> (options_of (fn r))) Hne) as Hkeep.
    destruct (copy_fields _ _ _ _) as [res store']. cbn [snd] in *.
    unfold options_of at 1. simpl. by rewrite Hkeep, lookup_insert_ne.
  - intros d' attr [= <-] Hmiss.
    pose proof (copy_fields_frame param_name new attr kws
                  (<[param_name := d]> (options_of (fn r))) Hmiss) as Hframe.
    destruct (copy_fields _ _ _ _) as [res store']. cbn [snd] in *.
    unfold options_of at 1. simpl. by rewrite Hframe, lookup_insert_eq.
Qed.

(** X21. After an [override_option] that returned, every keyword bound to
    something other than [MISSING] names an attribute of the transient
    descriptor that [option] built, and the descriptor of the parameter
    holds the value of that attribute. *)
Theorem override_option_takes param_name o r r' :
  override_option param_name o r = (inr tt, r') ->
  exists new,
    option_ (bound_kwargs o) = inr new /\
    forall key v, (key, v) ∈ bound_kwargs o -> is_missing v = false ->
      exists nv, new !! key = Some nv /\
                 (options_of (fn r') !! param_name) ≫= (.!! key) = Some nv.
Proof.
  rewrite override_option_run.
  destruct (descriptor_at (options_of (fn r)) param_name) as [e|d]; [done|].
  cbv zeta. destruct (option_ (bound_kwargs o)) as [e|new]; [done|].
  pose proof (bound_kwargs_NoDup o) as Hnd. revert Hnd.
  generalize (bound_kwargs o) as kws. intros kws Hnd.
  destruct (copy_fields param_name new kws _) as [[e|[]] store'] eqn:Hcopy; [done|].
  intros [= <-]. exists new. split; [done|]. intros key v Hin Hv.
  unfold options_of. simpl.
  eapply (copy_fields_takes _ _ _ _ _ Hnd); [|exact Hcopy|exact Hin|exact Hv].
  rewrite lookup_insert_eq. by eexists.
Qed.

(** X22. When [option] rejects the keywords of an override, the decorator
    raises what [option] raised, and the callback is left with the
    descriptor store, the placeholder descriptor of the parameter included:
    the store is made, and the parameter looked up in it, before the
    transient descriptor is built. *)
Theorem override_option_rejected param_name o r d e :
  descriptor_at (options_of (fn r)) param_name = inr d ->
  option_ (bound_kwargs o) = inl e ->
  override_option param_name o r
  = (inl e, set_fn (set_options (<[param_name := d]> (options_of (fn r)))) r).
Proof. intros Hd He. by rewrite override_option_run, Hd, He. Qed.

End OverrideMore.

(** ** The bot facade *)

Section FacadeFacts.
Context `{Host}.
Local Open Scope list_scope.

(** X23. The module level [inject] on a plain callback stores every keyword,
    [excluded_options] included: when [add_command] later binds it (the
    callback carrying no partial of [Injector.inject]), the registration is
    the one of the bot's injector with the same keywords. *)
Theorem module_inject_deferred bot k rand0 rand c r :
  compat_inject (fn r) = None ->
  let r1 := (inject k rand0 None r).2 in
  (inject k rand0 None r).1 = inr tt /\
  add_command bot rand c r1
  = (Injector_inject bot k rand (Some c) ;;;
     modify (set_compat_injector bot) ;;;
     modify (add_legacy_command (cmd_name c))) r1.
Proof.
  intros Hnone r1. split; [done|].
  unfold add_command, bind at 1, get. subst r1. simpl. by rewrite Hnone.
Qed.

(** [add_command], written out. *)
Lemma add_command_run bot rand c r :
  add_command bot rand c r
  = match
      match compat_inject (fn r) with
      | Some p => Injector_inject (call_pending p).1 (call_pending p).2 rand (Some c) r
      | None =>
          match compat_injection_kwargs (fn r) with
          | Some k => Injector_inject bot k rand (Some c) r
          | None => (inr tt, r)
          end
      end
    with
    | (inl e, r1) => (inl e, r1)
    | (inr _, r1) => (inr tt, add_legacy_command (cmd_name c) (set_compat_injector bot r1))
    end.
Proof.
  unfold add_command. unfold bind at 1. unfold get at 1. cbv beta iota.
  unfold bind at 1. destruct (compat_inject (fn r)) as [p|].
  - destruct (call_pending p) as [i k]. cbn [fst snd].
    by destruct (Injector_inject i k rand (Some c) r) as [[e|[]] r1].
  - destruct (compat_injection_kwargs (fn r)) as [k|]; [|done].
    by destruct (Injector_inject bot k rand (Some c) r) as [[e|[]] r1].
Qed.



Lemma add_command_marks bot rand c r r1 :
  add_command bot rand c r = (inr tt, r1) -> compat_injector r1 = Some bot.
Proof.
  rewrite add_command_run.
  destruct (match compat_inject (fn r) with Some _ => _ | None => _ end)
    as [[e|[]] r0]; [done|].
  by intros [= <-].
Qed.

(** X25. The module level [inject] applied to a command does nothing, and
    raises nothing, while the command has not been added to a bot; once
    [add_command] has returned for it, it registers through that bot's
    injector. *)
Theorem module_inject_on_command bot k rand0 rand c r r1 :
  add_command bot rand0 c r = (inr tt, r1) ->
  (compat_injector r = None -> inject k rand (Some c) r = (inr tt, r)) /\
  inject k rand (Some c) r1 = Injector_inject bot k rand (Some c) r1.
Proof.
  intros Hadd. split.
  - intros Hnone. unfold inject, bind, get. by rewrite Hnone.
  - apply add_command_marks in Hadd.
    unfold inject, bind, get. by rewrite Hadd.
Qed.

End FacadeFacts.

(** ** The further statements on the example inputs *)

Section MoreInstances.
Import Example Runtime Dispatch.
Local Open Scope list_scope.

Lemma send_interaction_keywords_witness :
  let self := new_context (Makeshift (from_interaction 7)) in
  let kw : kwargs := <["nonce" := VInt 1]> (<["ephemeral" := VBool true]> ∅) in
  calls (send (H := Sample.platform) self (VStr "hi") kw More.nothing).2
  = calls More.nothing
    ++ [if is_done 7 More.nothing then followup_send 7 (VStr "hi") (stripped kw)
        else response_send_message 7 (VStr "hi") (stripped kw)] /\
  (forall key,
     stripped kw !! key
     = if bool_decide (key ∈ ["reference"; "mention_after"; "delete_after"; "nonce"])
       then None else kw !! key).
Proof.
  apply (send_interaction_keywords (H := Sample.platform)
           (new_context (Makeshift (from_interaction 7))) 7).
  reflexivity.
Defined.

Lemma send_legacy_witness :
  let kw : kwargs := <["ephemeral" := VBool true]> (<["tts" := VBool false]> ∅) in
  let c := Context_send (VStr "hi") (delete "ephemeral" kw) in
  send (H := Sample.platform) (new_context Message) (VStr "hi") kw More.nothing
  = (if accepts (Platform := Sample.platform) c
     then inr (VClass "discord.Message") else inl HTTPException,
     {| responded := responded More.nothing; calls := calls More.nothing ++ [c] |}) /\
  (forall key, delete "ephemeral" kw !! key
               = if decide (key = "ephemeral") then None else kw !! key).
Proof.
  apply (send_legacy (H := Sample.platform) (new_context Message)).
  reflexivity.
Defined.

Lemma send_refused_retries_witness :
  let self := new_context (Makeshift (from_interaction 7)) in
  let first := send (H := More.refusing) self (VStr "hi") ∅ More.nothing in
  first.1 = inl HTTPException /\
  is_done 7 first.2 = false /\
  calls (send (H := More.refusing) self (VStr "again") ∅ first.2).2
  = calls More.nothing ++ [response_send_message 7 (VStr "hi") (stripped ∅);
                           response_send_message 7 (VStr "again") (stripped ∅)].
Proof.
  apply (send_refused_retries (H := More.refusing)
           (new_context (Makeshift (from_interaction 7))) 7).
  - reflexivity.
  - apply not_elem_of_empty.
  - reflexivity.
Defined.


Lemma callback_unresolved_witness :
  callback (H := SampleBot.bot (Some false) (inr true) None) add [] None
    SampleBot.two_three 7 SampleBot.start
  = (inr tt, {| host := host SampleBot.start; steps := steps SampleBot.start |}).
Proof.
  apply (callback_unresolved (H := SampleBot.bot (Some false) (inr true) None)
           add [] None SampleBot.two_three 7 SampleBot.start
           [("a", VInt 2); ("b", VInt 3)] (Some false)).
  - vm_compute. reflexivity.
  - reflexivity.
  - discriminate.
Defined.

Lemma callback_check_failed_witness :
  let bot := SampleBot.bot (Some true) (inr false) None in
  let message := Makeshift (synthesize add 7) in
  let failure := CheckFailure "The global check once functions failed." in
  callback (H := bot) add [] None SampleBot.two_three 7 SampleBot.start
  = ((dispatch_error (Bot := bot) (new_context message) failure More.nothing).1,
     {| host := (dispatch_error (Bot := bot) (new_context message) failure More.nothing).2;
        steps := steps SampleBot.start
                 ++ [dispatched "command"; error_dispatched failure] |}).
Proof.
  apply (callback_check_failed (H := SampleBot.bot (Some true) (inr false) None)
           add [] None SampleBot.two_three 7 SampleBot.start
           [("a", VInt 2); ("b", VInt 3)] More.nothing More.nothing).
  - vm_compute. reflexivity.
  - reflexivity.
  - reflexivity.
Defined.

Lemma callback_completed_witness :
  let bot := SampleBot.bot (Some true) (inr true) None in
  let kw := [("a", VInt 2); ("b", VInt 3)] in
  let sent :=
    (func (Bot := bot) None (new_context (Makeshift (synthesize add 7))) kw
       More.nothing).2 in
  callback (H := bot) add [] None SampleBot.two_three 7 SampleBot.start
  = (inr tt,
     {| host := sent;
        steps := steps SampleBot.start
                 ++ [dispatched "command"; invoked None kw;
                     dispatched "command_completion"] |}) /\
  kw.*1 = filter (fun key => key ∉ []) (clean_params add).*1 /\
  Forall (fun e => (e.1 ∉ []) /\ SampleBot.two_three !! e.1 = Some e.2) kw.
Proof.
  apply (callback_completed (H := SampleBot.bot (Some true) (inr true) None)
           add [] None SampleBot.two_three 7 SampleBot.start
           [("a", VInt 2); ("b", VInt 3)] More.nothing More.nothing).
  - vm_compute. reflexivity.
  - reflexivity.
  - reflexivity.
  - vm_compute. reflexivity.
Defined.

Lemma callback_handler_raised_witness :
  let e := ValueError "boom" in
  let bot := SampleBot.bot (Some true) (inr true) (Some e) in
  let kw := [("a", VInt 2); ("b", VInt 3)] in
  let ctx := new_context (Makeshift (synthesize add 7)) in
  let sent := (func (Bot := bot) None ctx kw More.nothing).2 in
  callback (H := bot) add [] None SampleBot.two_three 7 SampleBot.start
  = if is_command_error e then
      ((dispatch_error (Bot := bot) ctx e sent).1,
       {| host := (dispatch_error (Bot := bot) ctx e sent).2;
          steps := steps SampleBot.start
                   ++ [dispatched "command"; invoked None kw; error_dispatched e] |})
    else
      (inl e, {| host := sent;
                 steps := steps SampleBot.start
                          ++ [dispatched "command"; invoked None kw] |}).
Proof.
  apply (callback_handler_raised
           (H := SampleBot.bot (Some true) (inr true) (Some (ValueError "boom")))
           add [] None SampleBot.two_three 7 SampleBot.start
           [("a", VInt 2); ("b", VInt 3)] More.nothing More.nothing).
  - vm_compute. reflexivity.
  - reflexivity.
  - reflexivity.
  - vm_compute. reflexivity.
Defined.

Lemma callback_missing_option_witness :
  exists k,
    k ∈ (clean_params add).*1 /\ (k ∉ ["a"]) /\
    (<["a" := VInt 2]> ∅ : obj) !! k = None /\
    callback (H := SampleBot.bot (Some true) (inr true) None) add ["a"] None
      (<["a" := VInt 2]> ∅) 7 SampleBot.start
    = (inl (AttributeError k), SampleBot.start).
Proof.
  apply (callback_missing_option (H := SampleBot.bot (Some true) (inr true) None)
           add ["a"] None (<["a" := VInt 2]> ∅) 7 SampleBot.start "b").
  - apply list_elem_of_further, list_elem_of_here.
  - apply not_elem_of_cons. split; [discriminate|apply not_elem_of_nil].
  - reflexivity.
Defined.

Lemma registration_excluded_witness :
  let k := inject_with None ["b"] in
  let r' := (Injector_inject (H := Sample.host) the_injector k "00ff" (Some add)
               add_described).2 in
  exists s,
    last (application_commands r') = Some (s, guild_id k) /\
    ("b" ∉ s_callback_kwargs s) /\
    s_options s !! "b" = options_of (fn add_described) !! "b".
Proof.
  apply (registration_excluded (H := Sample.host) the_injector (inject_with None ["b"])
           "00ff" add add_described).
  - apply list_elem_of_here.
  - vm_compute. reflexivity.
Defined.

Lemma registration_options_witness :
  let k := inject_with None ["b"] in
  let r' := (Injector_inject (H := Sample.host) the_injector k "00ff" (Some add)
               (fresh add_fn)).2 in
  exists s,
    last (application_commands r') = Some (s, guild_id k) /\
    (forall key,
       is_Some (s_options s !! key) <->
       is_Some (options_of (fn (fresh add_fn)) !! key) \/
       (key ∈ (clean_params add).*1 /\ key ∉ excluded_options k)) /\
    (forall key,
       key ∈ s_callback_kwargs s <->
       key ∈ (clean_params add).*1 /\ key ∉ excluded_options k).
Proof.
  apply (registration_options (H := Sample.host) the_injector (inject_with None ["b"])
           "00ff" add (fresh add_fn)).
  vm_compute. reflexivity.
Defined.

Lemma registration_resolved_witness :
  let k := inject_with None [] in
  let r := fresh More.count_fn in
  let r' := (Injector_inject (H := Sample.host) the_injector k "00ff"
               (Some More.count) r).2 in
  exists s d,
    last (application_commands r') = Some (s, guild_id k) /\
    descriptor_at (H := Sample.host) (options_of (fn r)) "label" = inr d /\
    let given := setattr (setattr d "required" (VBool false)) "default" VNone in
    match Sample.resolve given (VClass "Tag") with
    | (d', None) => s_options s !! "label" = Some d'
    | (d', Some (TypeError _)) =>
        s_options s !! "label" = Some (setattr d' "type" (VOptionType string_t))
    | (_, Some _) => False
    end.
Proof.
  apply (registration_resolved (H := Sample.host) the_injector (inject_with None [])
           "00ff" More.count (fresh More.count_fn) _ "label"
           {| inspect.default := Some VNone |} VNone (VClass "Tag")).
  - apply (bool_decide_unpack _). vm_compute. exact I.
  - apply list_elem_of_further, list_elem_of_here.
  - apply not_elem_of_nil.
  - reflexivity.
  - vm_compute. reflexivity.
  - reflexivity.
  - vm_compute. reflexivity.
Defined.

(** On [count]: [times] is typed by the resolver, [label] falls back to
    [string]; both are optional and carry their defaults. *)
Lemma count_registered :
  let r' := (Injector_inject (H := Sample.host) the_injector (inject_with None [])
               "00ff" (Some More.count) (fresh More.count_fn)).2 in
  exists s,
    application_commands r' = [(s, None)] /\
    (s_options s !! "times") ≫= (.!! "type") = Some (VOptionType integer) /\
    (s_options s !! "label") ≫= (.!! "type") = Some (VOptionType string_t) /\
    (s_options s !! "times") ≫= (.!! "required") = Some (VBool false) /\
    (s_options s !! "times") ≫= (.!! "default") = Some (VInt 3).
Proof. eexists. vm_compute. repeat split. Qed.

Lemma override_option_takes_witness :
  let r' := (override_option (H := Sample.host) "a" More.named (fresh add_fn)).2 in
  exists new,
    Sample.make_option (bound_kwargs More.named) = inr new /\
    forall key v, (key, v) ∈ bound_kwargs More.named -> is_missing v = false ->
      exists nv, new !! key = Some nv /\
                 (options_of (fn r') !! "a") ≫= (.!! key) = Some nv.
Proof.
  apply (override_option_takes (H := Sample.host) "a" More.named (fresh add_fn)).
  vm_compute. reflexivity.
Defined.

Lemma override_option_rejected_witness :
  let d := default ∅ (from_option Some None
             (match Sample.make_option [("description", VMissing)] with
              | inr d => Some d | inl _ => None end)) in
  override_option (H := Sample.host) "a" More.both_flags (fresh add_fn)
  = (inl (ValueError "only one of required or optional may be specified"),
     set_fn (set_options (<["a" := d]> (options_of (fn (fresh add_fn))))) (fresh add_fn)).
Proof.
  apply (override_option_rejected (H := Sample.host) "a" More.both_flags (fresh add_fn)).
  - vm_compute. reflexivity.
  - vm_compute. reflexivity.
Defined.

Lemma module_inject_deferred_witness :
  let k := inject_with None ["b"] in
  let r1 := (inject (H := Sample.host) k "" None (fresh add_fn)).2 in
  (inject (H := Sample.host) k "" None (fresh add_fn)).1 = inr tt /\
  add_command (H := Sample.host) the_injector "00ff" add r1
  = (Injector_inject (H := Sample.host) the_injector k "00ff" (Some add) ;;;
     modify (set_compat_injector the_injector) ;;;
     modify (add_legacy_command (cmd_name add))) r1.
Proof.
  apply (module_inject_deferred (H := Sample.host) the_injector (inject_with None ["b"])
           "" "00ff" add (fresh add_fn)).
  reflexivity.
Defined.

Lemma module_inject_on_command_witness :
  let r := fresh add_fn in
  let r1 := (add_command (H := Sample.host) the_injector "00" add r).2 in
  (compat_injector r = None ->
   inject (H := Sample.host) guild "00ff" (Some add) r = (inr tt, r)) /\
  inject (H := Sample.host) guild "00ff" (Some add) r1
  = Injector_inject (H := Sample.host) the_injector guild "00ff" (Some add) r1.
Proof.
  apply (module_inject_on_command (H := Sample.host) the_injector guild "00" "00ff" add
           (fresh add_fn)).
  vm_compute. reflexivity.
Defined.

End MoreInstances.
